(** * Invitation lifecycle of the Digby Dolphins cloud functions

    A shallow embedding of [functions/invitations.js]: the callable functions
    [sendInvitations], [resendInvitation], [deleteInvitation],
    [getInvitations], [verifyInvitation] and [acceptInvitation], run against
    an in-memory document store.

    What the functions read from outside the store (the clock, the random
    source, the id chosen by [collection.doc()], the commit time that
    resolves [FieldValue.serverTimestamp()], the fate of
    [transporter.sendMail]) is handed to them in an [Env] record, one record
    per call, and one per loop iteration of [sendInvitations]. Reads and
    writes of the store itself do not fail, and the text of the mails is
    left out: of a mail only its fate matters to the functions.

    The store is keyed by document ids, and [doc(id)] is modelled for the
    strings that are document ids ([document_id] below): for the empty
    string, or a string with a slash, the client library refuses the path or
    resolves it outside the collection, which the store does not represent.
    Where the outcome stated for a request depends on it, the statement
    names this condition. *)

From Stdlib Require Import ZArith Lia Ascii.
From stdpp Require Import gmap strings list sorting.

Local Open Scope string_scope.
Local Open Scope Z_scope.

(** ** JavaScript values *)

(** An exception as [new Error(message)] builds it: every [throw] of the
    module uses the constructor [Error], whose [name] property is the string Error. *)
Record JsError := mkJsError { err_name : string; message : string }.

Definition Error (msg : string) : JsError :=
  {| err_name := "Error"; message := msg |}.

(** Truthiness of a string, and of a property that may be missing. *)
Definition truthy (s : string) : bool := negb (String.eqb s "").

(** [s.length] counts UTF-16 code units. A string here holds the UTF-8
    bytes of the text: the first byte of a character counts for one unit,
    for two when the character takes four bytes (a surrogate pair in
    UTF-16), and a continuation byte for none. *)
Definition utf16_units (c : ascii) : nat :=
  let n := N_of_ascii c in
  if (n <? 128)%N then 1
  else if (n <? 192)%N then 0
  else if (n <? 240)%N then 1
  else 2.

Fixpoint js_length (s : string) : nat :=
  match s with
  | EmptyString => 0
  | String c rest => utf16_units c + js_length rest
  end.

Definition truthy_opt (o : option string) : bool :=
  match o with
  | Some s => truthy s
  | None => false
  end.

(** [a || b] where [a] may be undefined and [b] is a string. *)
Definition js_or (a : option string) (b : string) : string :=
  match a with
  | Some s => if truthy s then s else b
  | None => b
  end.

(** ** Timestamps *)

(** A Firestore [Timestamp]: whole seconds since the epoch and the
    nanoseconds within that second. *)
Record Timestamp := mkTimestamp { seconds : Z; nanoseconds : Z }.

(** [Timestamp.fromDate(new Date(ms))], which is [Timestamp.fromMillis(ms)]. *)
Definition Timestamp_fromDate (ms : Z) : Timestamp :=
  {| seconds := ms / 1000; nanoseconds := (ms - (ms / 1000) * 1000) * 1000000 |}.

(** [7 * 24 * 60 * 60 * 1000], the lifetime of a token in milliseconds. *)
Definition sevenDays : Z := 7 * 24 * 60 * 60 * 1000.

(** Chronological order on timestamps, and a timestamp moved by whole
    seconds; the code itself never compares more than [seconds]. *)
Definition ts_lt (a b : Timestamp) : Prop :=
  seconds a < seconds b ∨ (seconds a = seconds b ∧ nanoseconds a < nanoseconds b).

Definition ts_le (a b : Timestamp) : Prop := ¬ ts_lt b a.

Definition ts_plus_seconds (t : Timestamp) (s : Z) : Timestamp :=
  {| seconds := seconds t + s; nanoseconds := nanoseconds t |}.

(** Seven days in seconds. *)
Definition sevenDaysSeconds : Z := 7 * 24 * 60 * 60.

#[global] Instance Timestamp_eq_dec : EqDecision Timestamp.
Proof. solve_decision. Defined.

#[global] Instance ts_lt_dec a b : Decision (ts_lt a b).
Proof. unfold ts_lt. apply _. Defined.

#[global] Instance ts_le_dec a b : Decision (ts_le a b).
Proof. unfold ts_le. apply _. Defined.

(** ** What a call reads from outside the store *)

Record Env := mkEnv {
  Date_now : Z;                 (* Date.now(), milliseconds since the epoch *)
  entropy : nat → Byte.byte;    (* the bytes crypto.randomBytes hands out *)
  autoId : string;              (* the id chosen by collection.doc() *)
  serverTimestamp : Timestamp;  (* commit time, for FieldValue.serverTimestamp() *)
  sendMail : option string      (* None: the mail is sent; Some m: sendMail
                                   rejects with an Error whose message is m *)
}.

(** [Timestamp.now()] reads the same clock as [Date.now()]. *)
Definition Timestamp_now (env : Env) : Timestamp := Timestamp_fromDate (Date_now env).

(** ** Token generator *)

Definition hex_digit (n : N) : ascii :=
  match n with
  | 0%N => "0" | 1%N => "1" | 2%N => "2" | 3%N => "3"
  | 4%N => "4" | 5%N => "5" | 6%N => "6" | 7%N => "7"
  | 8%N => "8" | 9%N => "9" | 10%N => "a" | 11%N => "b"
  | 12%N => "c" | 13%N => "d" | 14%N => "e" | _ => "f"
  end%char.

(** [buf.toString('hex')]: two lower-case digits per byte. *)
Fixpoint toString_hex (buf : list Byte.byte) : string :=
  match buf with
  | [] => ""
  | b :: rest =>
      let n := Byte.to_N b in
      String (hex_digit (n / 16)) (String (hex_digit (n mod 16)) (toString_hex rest))
  end.

Definition randomBytes (env : Env) (n : nat) : list Byte.byte :=
  entropy env <$> seq 0 n.

Definition generateToken (env : Env) : string :=
  toString_hex (randomBytes env 32).

(** ** Documents and the store *)

(** A document of the [invitations] collection. [sendInvitations] writes the
    first seven fields; [updatedAt], [acceptedAt] and [acceptedBy] appear with
    [resendInvitation] and [acceptInvitation]; [role] is read by
    [verifyInvitation]. *)
Record Invitation := mkInvitation {
  inv_id : string;
  inv_email : string;
  inv_token : string;
  inv_status : string;
  inv_createdAt : Timestamp;
  inv_createdBy : string;
  inv_expiresAt : Timestamp;
  inv_role : option string;
  inv_updatedAt : option Timestamp;
  inv_acceptedAt : option Timestamp;
  inv_acceptedBy : option string
}.

(** A document of the [users] collection, as far as the functions read it. *)
Record UserDoc := mkUserDoc {
  usr_email : option string;
  usr_role : option string
}.

#[global] Instance Invitation_eq_dec : EqDecision Invitation.
Proof. solve_decision. Defined.

#[global] Instance UserDoc_eq_dec : EqDecision UserDoc.
Proof. solve_decision. Defined.

(** Both collections, keyed by document id. *)
Record Store := mkStore {
  users : gmap string UserDoc;
  invitations : gmap string Invitation
}.

(** ** Requests *)

Record AuthToken := mkAuthToken {
  tok_role : option string;     (* the custom claim [role] *)
  tok_email : string
}.

Record AuthData := mkAuthData { uid : string; auth_token : AuthToken }.

Record CallableRequest (D : Type) := mkRequest {
  data : D;
  auth : option AuthData
}.
Arguments mkRequest {D} _ _.
Arguments data {D} _.
Arguments auth {D} _.

(** ** Results, exceptions and state *)

Inductive Res (A : Type) : Type :=
  | Ok (a : A)
  | Throw (e : JsError).
Arguments Ok {A} _.
Arguments Throw {A} _.

(** A function body: it runs on a store and leaves a store, whether it
    returns or throws (a write made before a [throw] stays). *)
Definition Fn (A : Type) : Type := Store → Res A * Store.

Definition ret {A} (a : A) : Fn A := λ st, (Ok a, st).

Definition throw {A} (e : JsError) : Fn A := λ st, (Throw e, st).

Definition bind {A B} (m : Fn A) (k : A → Fn B) : Fn B :=
  λ st, match m st with
        | (Ok a, st') => k a st'
        | (Throw e, st') => (Throw e, st')
        end.

(** [try { body } catch (err) { handler }]. *)
Definition try_catch {A} (body : Fn A) (handler : JsError → Fn A) : Fn A :=
  λ st, match body st with
        | (Ok a, st') => (Ok a, st')
        | (Throw e, st') => handler e st'
        end.

Notation "'let!' x ':=' m 'in' k" := (bind m (λ x, k))
  (at level 10, x name, m at level 100, k at level 200).
Notation "m ';;' k" := (bind m (λ _, k))
  (at level 100, k at level 200, right associativity).

(** ** Store access *)

(** Firestore lists the documents of a query that names no [orderBy] by
    document id, ascending, the ids compared byte by byte. *)
Definition id_le (a b : string) : Prop := String.leb a b = true.

#[global] Instance id_le_dec a b : Decision (id_le a b).
Proof. unfold id_le. apply _. Defined.

Definition by_document_id {A} (a b : string * A) : Prop := id_le a.1 b.1.

#[global] Instance by_document_id_dec {A} (a b : string * A) :
  Decision (by_document_id a b).
Proof. unfold by_document_id. apply _. Defined.

(** The documents of a collection that pass a filter, in that order. *)
Definition where_ {A} (P : A → Prop) `{∀ x, Decision (P x)}
    (c : gmap string A) : list A :=
  (merge_sort by_document_id (map_to_list (filter (λ d, P d.2) c))).*2.

(** [.limit(1)]. *)
Definition limit1 {A} (docs : list A) : list A := take 1 docs.

(** [snapshot.empty]. *)
Definition empty_snapshot {A} (docs : list A) : bool :=
  match docs with
  | [] => true
  | _ :: _ => false
  end.

(** [db.collection('users').doc(uid).get()]. *)
Definition users_doc_get (id : string) : Fn (option UserDoc) :=
  λ st, (Ok (users st !! id), st).

(** [db.collection('users').where('email', '==', email).limit(1).get()]. *)
Definition users_where_email (email : string) : Fn (list UserDoc) :=
  λ st, (Ok (limit1 (where_ (λ u, usr_email u = Some email) (users st))), st).

(** [db.collection('invitations').doc(id).get()], for a document id. *)
Definition invitations_doc_get (id : string) : Fn (option Invitation) :=
  λ st, (Ok (invitations st !! id), st).

(** The query of [sendInvitations]: pending invitations of an address. *)
Definition pending_for (email : string) (inv : Invitation) : Prop :=
  inv_email inv = email ∧ inv_status inv = "pending".

Definition invitations_where_pending (email : string) : Fn (list Invitation) :=
  λ st, (Ok (limit1 (where_ (pending_for email) (invitations st))), st).

(** The query of [verifyInvitation]: address, token and status. *)
Definition matches (email token : string) (inv : Invitation) : Prop :=
  inv_email inv = email ∧ inv_token inv = token ∧ inv_status inv = "pending".

Definition invitations_where_token (email token : string) : Fn (list Invitation) :=
  λ st, (Ok (limit1 (where_ (matches email token) (invitations st))), st).

(** [invitationRef.set(doc)] on the reference [doc(id)]. *)
Definition invitations_set (id : string) (doc : Invitation) : Fn unit :=
  λ st, (Ok tt, {| users := users st; invitations := <[id := doc]> (invitations st) |}).

(** [invitationDoc.ref.update(...)]: the callers have read the document at
    [id] just before, so it is there; the fields named in the update are
    replaced and the others kept. *)
Definition invitations_update (id : string) (f : Invitation → Invitation) : Fn unit :=
  λ st, (Ok tt, {| users := users st; invitations := alter f id (invitations st) |}).

(** [db.collection('invitations').doc(id).delete()], for a document id: no
    error when the document is missing. *)
Definition invitations_delete (id : string) : Fn unit :=
  λ st, (Ok tt, {| users := users st; invitations := delete id (invitations st) |}).

(** [transporter.sendMail(mailOptions)]. *)
Definition transporter_sendMail (env : Env) : Fn unit :=
  match sendMail env with
  | None => ret tt
  | Some m => throw (Error m)
  end.

(** ** The administrator check

    Each of the four administrator functions opens with the same two steps;
    they differ in the wording of the messages only. The first step runs
    before the function's [try], the second inside it. *)

(** [if (!request.auth) throw new Error('Unauthorized: You must be logged in to ...')]. *)
Definition requireAuth {D} (request : CallableRequest D) (what : string) : Fn AuthData :=
  match auth request with
  | None => throw (Error ("Unauthorized: You must be logged in to " +:+ what))
  | Some a => ret a
  end.

(** The custom claim first, the [users] document of the caller second. *)
Definition requireAdmin (a : AuthData) (what : string) : Fn unit :=
  if negb (truthy_opt (tok_role (auth_token a)))
     || negb (bool_decide (tok_role (auth_token a) = Some "admin"))
  then
    let! userDoc := users_doc_get (uid a) in
    match userDoc with
    | Some u =>
        if bool_decide (usr_role u = Some "admin") then ret tt
        else throw (Error ("Unauthorized: Only admins can " +:+ what))
    | None => throw (Error ("Unauthorized: Only admins can " +:+ what))
    end
  else ret tt.

(** [catch (err) { throw new Error(`<prefix>: ${err.message}`) }]. *)
Definition rethrow {A} (prefix : string) (err : JsError) : Fn A :=
  throw (Error (prefix +:+ ": " +:+ message err)).

(** ** sendInvitations *)

Record SendData := mkSendData {
  emails : list string;
  invitedBy : option string
}.

Record FailedItem := mkFailed { f_email : string; reason : string }.

Record Results := mkResults {
  success : list string;
  failed : list FailedItem
}.

#[global] Instance FailedItem_eq_dec : EqDecision FailedItem.
Proof. solve_decision. Defined.

Definition push_success (r : Results) (email : string) : Results :=
  {| success := success r ++ [email]; failed := failed r |}.

Definition push_failed (r : Results) (email why : string) : Results :=
  {| success := success r; failed := failed r ++ [mkFailed email why] |}.

(** The record that [invitationRef.set] writes. *)
Definition newInvitation (env : Env) (createdBy email : string) : Invitation :=
  {| inv_id := autoId env;
     inv_email := email;
     inv_token := generateToken env;
     inv_status := "pending";
     inv_createdAt := serverTimestamp env;
     inv_createdBy := createdBy;
     inv_expiresAt := Timestamp_fromDate (Date_now env + sevenDays);
     inv_role := None;
     inv_updatedAt := None;
     inv_acceptedAt := None;
     inv_acceptedBy := None |}.

(** [err.message || 'Unknown error']. *)
Definition reason_of (m : string) : string :=
  if truthy m then m else "Unknown error".

(** The body of the [for (const email of emails)] loop, with its own
    [try]/[catch]. *)
Definition processEmail (env : Env) (createdBy email : string) (results : Results)
    : Fn Results :=
  try_catch
    (let! userSnapshot := users_where_email email in
     if negb (empty_snapshot userSnapshot) then
       ret (push_failed results email "User already exists")
     else
       let! invitationSnapshot := invitations_where_pending email in
       if negb (empty_snapshot invitationSnapshot) then
         ret (push_failed results email "Invitation already sent")
       else
         invitations_set (autoId env) (newInvitation env createdBy email) ;;
         transporter_sendMail env ;;
         ret (push_success results email))
    (λ err, ret (push_failed results email (reason_of (message err)))).

(** [const results = { success: [], failed: [] }]. *)
Definition no_results : Results := {| success := []; failed := [] |}.

(** The loop: iteration [i] reads [env i]. *)
Fixpoint forEmails (env : nat → Env) (i : nat) (createdBy : string)
    (todo : list string) (results : Results) : Fn Results :=
  match todo with
  | [] => ret results
  | email :: rest =>
      let! results' := processEmail (env i) createdBy email results in
      forEmails env (S i) createdBy rest results'
  end.

Definition sendInvitations (env : nat → Env) (request : CallableRequest SendData)
    : Fn Results :=
  let! a := requireAuth request "send invitations" in
  try_catch
    (requireAdmin a "send invitations" ;;
     if empty_snapshot (emails (data request)) then
       throw (Error "Invalid input: emails must be a non-empty array")
     else
       forEmails env 0
         (js_or (invitedBy (data request)) (tok_email (auth_token a)))
         (emails (data request))
         no_results)
    (rethrow "Failed to send invitations").

(** [{ success: true }], the value the single-item functions return. *)
Inductive SuccessResponse : Type := success_true.

(** ** resendInvitation *)

(** The record after [update({token, expiresAt, updatedAt})]: a new token
    and an expiry seven days from now; the other fields stay. *)
Definition reissued (env : Env) (d : Invitation) : Invitation :=
  {| inv_id := inv_id d;
     inv_email := inv_email d;
     inv_token := generateToken env;
     inv_status := inv_status d;
     inv_createdAt := inv_createdAt d;
     inv_createdBy := inv_createdBy d;
     inv_expiresAt := Timestamp_fromDate (Date_now env + sevenDays);
     inv_role := inv_role d;
     inv_updatedAt := Some (serverTimestamp env);
     inv_acceptedAt := inv_acceptedAt d;
     inv_acceptedBy := inv_acceptedBy d |}.

Definition resendInvitation (env : Env) (request : CallableRequest string)
    : Fn SuccessResponse :=
  let invitationId := data request in
  let! a := requireAuth request "resend invitations" in
  try_catch
    (requireAdmin a "resend invitations" ;;
     let! invitationDoc := invitations_doc_get invitationId in
     match invitationDoc with
     | None => throw (Error "Invitation not found")
     | Some invitation =>
         if negb (bool_decide (inv_status invitation = "pending")) then
           throw (Error "Cannot resend an invitation that has already been accepted")
         else
           invitations_update invitationId (reissued env) ;;
           transporter_sendMail env ;;
           ret success_true
     end)
    (rethrow "Failed to resend invitation").

(** ** deleteInvitation *)

Definition deleteInvitation (request : CallableRequest string) : Fn SuccessResponse :=
  let invitationId := data request in
  let! a := requireAuth request "delete invitations" in
  try_catch
    (requireAdmin a "delete invitations" ;;
     invitations_delete invitationId ;;
     ret success_true)
    (rethrow "Failed to delete invitation").

(** ** getInvitations *)

(** [orderBy('createdAt', 'desc')]: newest first. *)
Definition newer_first (a b : Invitation) : Prop :=
  ts_le (inv_createdAt b) (inv_createdAt a).

Definition invitations_orderBy_createdAt_desc : Fn (list Invitation) :=
  λ st, (Ok (merge_sort newer_first (map_to_list (invitations st)).*2), st).

Definition getInvitations (request : CallableRequest unit) : Fn (list Invitation) :=
  let! a := requireAuth request "view invitations" in
  try_catch
    (requireAdmin a "view invitations" ;;
     invitations_orderBy_createdAt_desc)
    (rethrow "Failed to get invitations").

(** ** verifyInvitation *)

Record VerifyData := mkVerifyData { v_token : string; v_email : string }.

(** What the function returns: [{valid: true, invitation: {id, email, role}}]
    or [{valid: false, error}]. *)
Inductive VerifyResponse : Type :=
  | Valid (id email role : string)
  | NotValid (error : string).

#[global] Instance VerifyResponse_eq_dec : EqDecision VerifyResponse.
Proof. solve_decision. Defined.

Definition verifyInvitation (env : Env) (request : CallableRequest VerifyData)
    : Fn VerifyResponse :=
  let token := v_token (data request) in
  let email := v_email (data request) in
  if negb (truthy token) || negb (truthy email) then
    throw (Error "Invalid request: token and email are required")
  else
    try_catch
      (let! invitationsSnapshot := invitations_where_token email token in
       match invitationsSnapshot with
       | [] => throw (Error "Invalid or expired invitation")
       | invitation :: _ =>
           let now := Timestamp_now env in
           if bool_decide (seconds (inv_expiresAt invitation) < seconds now) then
             throw (Error "Invitation has expired")
           else
             ret (Valid (inv_id invitation) (inv_email invitation)
                        (js_or (inv_role invitation) "supporter"))
       end)
      (λ err, ret (NotValid (message err))).

(** ** acceptInvitation *)

Record AcceptData := mkAcceptData { a_invitationId : string; a_userId : string }.

(** The record after [update({status, acceptedAt, acceptedBy})]. *)
Definition accepted_by (env : Env) (userId : string) (d : Invitation) : Invitation :=
  {| inv_id := inv_id d;
     inv_email := inv_email d;
     inv_token := inv_token d;
     inv_status := "accepted";
     inv_createdAt := inv_createdAt d;
     inv_createdBy := inv_createdBy d;
     inv_expiresAt := inv_expiresAt d;
     inv_role := inv_role d;
     inv_updatedAt := inv_updatedAt d;
     inv_acceptedAt := Some (serverTimestamp env);
     inv_acceptedBy := Some userId |}.

Definition acceptInvitation (env : Env) (request : CallableRequest AcceptData)
    : Fn SuccessResponse :=
  let invitationId := a_invitationId (data request) in
  let userId := a_userId (data request) in
  if negb (truthy invitationId) || negb (truthy userId) then
    throw (Error "Invalid request: invitationId and userId are required")
  else
    try_catch
      (let! invitationDoc := invitations_doc_get invitationId in
       match invitationDoc with
       | None => throw (Error "Invitation not found")
       | Some invitation =>
           if negb (bool_decide (inv_status invitation = "pending")) then
             throw (Error "Invitation has already been used")
           else
             let now := Timestamp_now env in
             if bool_decide (seconds (inv_expiresAt invitation) < seconds now) then
               throw (Error "Invitation has expired")
             else
               invitations_update invitationId (accepted_by env userId) ;;
               ret success_true
       end)
      (rethrow "Failed to accept invitation").

(** * The registration page

    [RegisterForm] of [src/app/register/page.tsx], the caller of
    [verifyInvitation] and [acceptInvitation]: its state, the effect that
    verifies the link ([verifyToken]) and the handler of the form
    ([handleSubmit]). A call through [httpsCallable] runs the function on the
    store. Two things the page uses are not part of these sources and are
    taken as parameters: the message that the callable client puts on the
    error it raises when a function throws, and [register] of the
    authentication context. Strings hold the UTF-8 bytes of the text, and
    [password.length] is [js_length], the number of UTF-16 code units. *)

(** [data.invitation], as [verifyInvitation] returns it. *)
Record InvitationInfo := mkInfo {
  info_id : string;
  info_email : string;
  info_role : string
}.

(** The state variables of the component, and the route pushed to the
    router, if any. *)
Record Page := mkPage {
  pg_email : string;
  pg_password : string;
  pg_confirmPassword : string;
  pg_displayName : string;
  pg_role : string;
  pg_error : string;
  pg_success : string;
  pg_loading : bool;
  pg_verifying : bool;
  pg_invitation : option InvitationInfo;
  pg_pushed : option string
}.

(** The values of the [useState] calls. *)
Definition initial_page : Page :=
  {| pg_email := ""; pg_password := ""; pg_confirmPassword := "";
     pg_displayName := ""; pg_role := "athlete"; pg_error := ""; pg_success := "";
     pg_loading := false; pg_verifying := true; pg_invitation := None;
     pg_pushed := None |}.

Definition setEmail (v : string) (pg : Page) : Page :=
  {| pg_email := v; pg_password := pg_password pg;
     pg_confirmPassword := pg_confirmPassword pg; pg_displayName := pg_displayName pg;
     pg_role := pg_role pg; pg_error := pg_error pg; pg_success := pg_success pg;
     pg_loading := pg_loading pg; pg_verifying := pg_verifying pg;
     pg_invitation := pg_invitation pg; pg_pushed := pg_pushed pg |}.

Definition setPassword (v : string) (pg : Page) : Page :=
  {| pg_email := pg_email pg; pg_password := v;
     pg_confirmPassword := pg_confirmPassword pg; pg_displayName := pg_displayName pg;
     pg_role := pg_role pg; pg_error := pg_error pg; pg_success := pg_success pg;
     pg_loading := pg_loading pg; pg_verifying := pg_verifying pg;
     pg_invitation := pg_invitation pg; pg_pushed := pg_pushed pg |}.

Definition setConfirmPassword (v : string) (pg : Page) : Page :=
  {| pg_email := pg_email pg; pg_password := pg_password pg;
     pg_confirmPassword := v; pg_displayName := pg_displayName pg;
     pg_role := pg_role pg; pg_error := pg_error pg; pg_success := pg_success pg;
     pg_loading := pg_loading pg; pg_verifying := pg_verifying pg;
     pg_invitation := pg_invitation pg; pg_pushed := pg_pushed pg |}.

Definition setDisplayName (v : string) (pg : Page) : Page :=
  {| pg_email := pg_email pg; pg_password := pg_password pg;
     pg_confirmPassword := pg_confirmPassword pg; pg_displayName := v;
     pg_role := pg_role pg; pg_error := pg_error pg; pg_success := pg_success pg;
     pg_loading := pg_loading pg; pg_verifying := pg_verifying pg;
     pg_invitation := pg_invitation pg; pg_pushed := pg_pushed pg |}.

Definition setRole (v : string) (pg : Page) : Page :=
  {| pg_email := pg_email pg; pg_password := pg_password pg;
     pg_confirmPassword := pg_confirmPassword pg; pg_displayName := pg_displayName pg;
     pg_role := v; pg_error := pg_error pg; pg_success := pg_success pg;
     pg_loading := pg_loading pg; pg_verifying := pg_verifying pg;
     pg_invitation := pg_invitation pg; pg_pushed := pg_pushed pg |}.

Definition setError (v : string) (pg : Page) : Page :=
  {| pg_email := pg_email pg; pg_password := pg_password pg;
     pg_confirmPassword := pg_confirmPassword pg; pg_displayName := pg_displayName pg;
     pg_role := pg_role pg; pg_error := v; pg_success := pg_success pg;
     pg_loading := pg_loading pg; pg_verifying := pg_verifying pg;
     pg_invitation := pg_invitation pg; pg_pushed := pg_pushed pg |}.

Definition setSuccess (v : string) (pg : Page) : Page :=
  {| pg_email := pg_email pg; pg_password := pg_password pg;
     pg_confirmPassword := pg_confirmPassword pg; pg_displayName := pg_displayName pg;
     pg_role := pg_role pg; pg_error := pg_error pg; pg_success := v;
     pg_loading := pg_loading pg; pg_verifying := pg_verifying pg;
     pg_invitation := pg_invitation pg; pg_pushed := pg_pushed pg |}.

Definition setLoading (v : bool) (pg : Page) : Page :=
  {| pg_email := pg_email pg; pg_password := pg_password pg;
     pg_confirmPassword := pg_confirmPassword pg; pg_displayName := pg_displayName pg;
     pg_role := pg_role pg; pg_error := pg_error pg; pg_success := pg_success pg;
     pg_loading := v; pg_verifying := pg_verifying pg;
     pg_invitation := pg_invitation pg; pg_pushed := pg_pushed pg |}.

Definition setVerifying (v : bool) (pg : Page) : Page :=
  {| pg_email := pg_email pg; pg_password := pg_password pg;
     pg_confirmPassword := pg_confirmPassword pg; pg_displayName := pg_displayName pg;
     pg_role := pg_role pg; pg_error := pg_error pg; pg_success := pg_success pg;
     pg_loading := pg_loading pg; pg_verifying := v;
     pg_invitation := pg_invitation pg; pg_pushed := pg_pushed pg |}.

Definition setInvitation (v : option InvitationInfo) (pg : Page) : Page :=
  {| pg_email := pg_email pg; pg_password := pg_password pg;
     pg_confirmPassword := pg_confirmPassword pg; pg_displayName := pg_displayName pg;
     pg_role := pg_role pg; pg_error := pg_error pg; pg_success := pg_success pg;
     pg_loading := pg_loading pg; pg_verifying := pg_verifying pg;
     pg_invitation := v; pg_pushed := pg_pushed pg |}.

(** [setTimeout(() => router.push(route), 2000)], once the timer has run. *)
Definition router_push (route : string) (pg : Page) : Page :=
  {| pg_email := pg_email pg; pg_password := pg_password pg;
     pg_confirmPassword := pg_confirmPassword pg; pg_displayName := pg_displayName pg;
     pg_role := pg_role pg; pg_error := pg_error pg; pg_success := pg_success pg;
     pg_loading := pg_loading pg; pg_verifying := pg_verifying pg;
     pg_invitation := pg_invitation pg; pg_pushed := Some route |}.

(** The effect that verifies the link. [token] and [invitedEmail] are the
    [token] and [email] parameters of the URL, [caller] is whoever is signed
    in in the browser. *)
Definition verifyToken (sdk_message : JsError → string) (env : Env)
    (caller : option AuthData) (token invitedEmail : option string)
    (pg : Page) (st : Store) : Page * Store :=
  if negb (truthy_opt token) || negb (truthy_opt invitedEmail) then
    (setError "Registration requires a valid invitation link" (setVerifying false pg), st)
  else
    let request :=
      mkRequest (mkVerifyData (default "" token) (default "" invitedEmail)) caller in
    match verifyInvitation env request st with
    | (Ok (Valid id email role), st') =>
        (setVerifying false
           (setRole role
              (setEmail email
                 (setInvitation (Some (mkInfo id email role)) (setVerifying true pg)))),
         st')
    | (Ok (NotValid error), st') =>
        (setVerifying false
           (setError (if truthy error then error else "Invalid or expired invitation link")
              (setVerifying true pg)),
         st')
    | (Throw err, st') =>
        (setVerifying false
           (setError ("Failed to verify invitation: " +:+
                      (if truthy (sdk_message err) then sdk_message err
                       else "Unknown error"))
              (setVerifying true pg)),
         st')
    end.

(** [getAuthErrorMessage], on [err.code], which may be missing: the cases of
    the [switch], tried in order. *)
Definition getAuthErrorMessage (errorCode : option string) : string :=
  if bool_decide (errorCode = Some "auth/email-already-in-use") then
    "This email is already registered"
  else if bool_decide (errorCode = Some "auth/invalid-email") then
    "Invalid email address format"
  else if bool_decide (errorCode = Some "auth/weak-password") then
    "Password is too weak. Use at least 6 characters"
  else if bool_decide (errorCode = Some "auth/operation-not-allowed") then
    "Registration is currently disabled"
  else "An error occurred during registration".

(** What [register(email, password, displayName, role)] does: it resolves,
    or it rejects with an error that may carry a [code]; either way it may
    have changed the store. *)
Inductive RegisterResult : Type :=
  | Registered
  | Rejected (code : option string).

Definition RegisterFn : Type :=
  string → string → string → string → Store → RegisterResult * Store.

(** The handler of the form. *)
Definition handleSubmit (register : RegisterFn) (env : Env) (caller : option AuthData)
    (pg : Page) (st : Store) : Page * Store :=
  let pg0 := setSuccess "" (setError "" pg) in
  if negb (truthy (pg_email pg)) || negb (truthy (pg_password pg))
     || negb (truthy (pg_confirmPassword pg)) || negb (truthy (pg_displayName pg)) then
    (setError "Please fill in all fields" pg0, st)
  else if negb (bool_decide (pg_password pg = pg_confirmPassword pg)) then
    (setError "Passwords do not match" pg0, st)
  else if (js_length (pg_password pg) <? 6)%nat then
    (setError "Password must be at least 6 characters long" pg0, st)
  else
    match register (pg_email pg) (pg_password pg) (pg_displayName pg) (pg_role pg) st with
    | (Registered, st1) =>
        let st2 :=
          match pg_invitation pg with
          | Some invitation =>
              (acceptInvitation env
                 (mkRequest (mkAcceptData (info_id invitation) (pg_email pg)) caller)
                 st1).2
          | None => st1
          end in
        (setLoading false
           (router_push "/login"
              (setSuccess "Registration successful! You can now log in."
                 (setLoading true pg0))),
         st2)
    | (Rejected code, st1) =>
        (setLoading false
           (setError (if truthy (getAuthErrorMessage code) then getAuthErrorMessage code
                      else "Failed to register")
              (setLoading true pg0)),
         st1)
    end.

(** * Vocabulary of the statements *)

(** The function returned [{valid: true, ...}]. *)
Definition valid (r : Res VerifyResponse) : Prop :=
  match r with
  | Ok (Valid _ _ _) => True
  | _ => False
  end.

#[global] Instance valid_dec r : Decision (valid r).
Proof. destruct r as [[]|]; simpl; apply _. Defined.

(** The expiry test of the code: whole seconds only. *)
Definition live_at (now : Timestamp) (inv : Invitation) : Prop :=
  seconds now ≤ seconds (inv_expiresAt inv).

#[global] Instance live_at_dec now inv : Decision (live_at now inv).
Proof. unfold live_at. apply _. Defined.

(** The record that the query of [verifyInvitation] selects: among the
    stored invitations that match the address and the token and are pending,
    the one under the least document id. *)
Definition selected (email token : string) (st : Store) (inv : Invitation) : Prop :=
  ∃ k, invitations st !! k = Some inv ∧ matches email token inv ∧
       ∀ k' d, invitations st !! k' = Some d → matches email token d → id_le k k'.

(** The strings that name a document of a collection: not empty, without a
    slash, neither "." nor "..", not of the reserved form [__.*__], and of
    1500 bytes at most. *)
Definition contains_slash (id : string) : bool :=
  existsb (Ascii.eqb "/") (String.list_ascii_of_string id).

Definition reserved_id (id : string) : bool :=
  (4 <=? String.length id)%nat && String.prefix "__" id &&
  String.eqb (String.substring (String.length id - 2) 2 id) "__".

Definition document_id (id : string) : Prop :=
  id ≠ "" ∧ contains_slash id = false ∧ id ≠ "." ∧ id ≠ ".." ∧
  reserved_id id = false ∧ (String.length id ≤ 1500)%nat.

#[global] Instance document_id_dec id : Decision (document_id id).
Proof. unfold document_id. apply _. Defined.

(** The caller passes the check: by the custom claim, or by the [role] of
    the caller's document in [users]. *)
Definition is_admin (a : AuthData) (st : Store) : Prop :=
  tok_role (auth_token a) = Some "admin" ∨
  (users st !! uid a) ≫= usr_role = Some "admin".

#[global] Instance is_admin_dec a st : Decision (is_admin a st).
Proof. unfold is_admin. apply _. Defined.

(** An account exists for the address; a pending invitation exists for it. *)
Definition has_account (st : Store) (email : string) : Prop :=
  ∃ k u, users st !! k = Some u ∧ usr_email u = Some email.

Definition has_pending (st : Store) (email : string) : Prop :=
  ∃ k d, invitations st !! k = Some d ∧ pending_for email d.

#[global] Instance has_account_dec st email : Decision (has_account st email).
Proof.
  change (Decision (map_Exists (λ (_ : string) u, usr_email u = Some email) (users st))).
  apply _.
Defined.

#[global] Instance has_pending_dec st email : Decision (has_pending st email).
Proof.
  change (Decision (map_Exists (λ (_ : string) d, pending_for email d) (invitations st))).
  apply _.
Defined.

(** The store after [invitationRef.set]. *)
Definition with_invitation (env : Env) (createdBy email : string) (st : Store) : Store :=
  {| users := users st;
     invitations := <[autoId env := newInvitation env createdBy email]> (invitations st) |}.

(** What one turn of the loop does to the result lists and to the store. *)
Inductive item_step (env : Env) (createdBy email : string) (r : Results) (s : Store)
    : Results → Store → Prop :=
  | item_user_exists :
      has_account s email →
      item_step env createdBy email r s (push_failed r email "User already exists") s
  | item_already_sent :
      ¬ has_account s email → has_pending s email →
      item_step env createdBy email r s (push_failed r email "Invitation already sent") s
  | item_sent :
      ¬ has_account s email → ¬ has_pending s email → sendMail env = None →
      item_step env createdBy email r s
        (push_success r email) (with_invitation env createdBy email s)
  | item_dispatch_failed m :
      ¬ has_account s email → ¬ has_pending s email → sendMail env = Some m →
      item_step env createdBy email r s
        (push_failed r email (reason_of m)) (with_invitation env createdBy email s).

(** The loop after its first [i] turns. *)
Definition loop_after (env : nat → Env) (createdBy : string) (todo : list string)
    (st : Store) (i : nat) : Res Results * Store :=
  forEmails env 0 createdBy (take i todo) no_results st.

Definition createdBy_of (request : CallableRequest SendData) (a : AuthData) : string :=
  js_or (invitedBy (data request)) (tok_email (auth_token a)).

(** A call of one of the six functions, with what it reads from outside. *)
Inductive Call : Type :=
  | CallSend (env : nat → Env) (request : CallableRequest SendData)
  | CallResend (env : Env) (request : CallableRequest string)
  | CallDelete (request : CallableRequest string)
  | CallGet (request : CallableRequest unit)
  | CallVerify (env : Env) (request : CallableRequest VerifyData)
  | CallAccept (env : Env) (request : CallableRequest AcceptData).

(** The store a call leaves. *)
Definition step (c : Call) (st : Store) : Store :=
  match c with
  | CallSend env request => (sendInvitations env request st).2
  | CallResend env request => (resendInvitation env request st).2
  | CallDelete request => (deleteInvitation request st).2
  | CallGet request => (getInvitations request st).2
  | CallVerify env request => (verifyInvitation env request st).2
  | CallAccept env request => (acceptInvitation env request st).2
  end.

(** The store after a history of calls, one after the other. *)
Definition run (calls : list Call) (st : Store) : Store :=
  foldl (λ s c, step c s) st calls.

(** No stored invitation has a [role] field. *)
Definition no_role (st : Store) : Prop :=
  ∀ k d, invitations st !! k = Some d → inv_role d = None.



(** The invitation [k] can no longer be accepted: it is gone, or its status
    is not 'pending'. *)
Definition spent (k : string) (st : Store) : Prop :=
  match invitations st !! k with
  | Some d => inv_status d ≠ "pending"
  | None => True
  end.

(** A turn of this call draws the document id [k] for a new record. *)
Definition draws (c : Call) (k : string) : Prop :=
  match c with
  | CallSend env request => ∃ j email, emails (data request) !! j = Some email ∧
                                       autoId (env j) = k
  | _ => False
  end.

(** A lower-case hexadecimal digit, and its value. *)
Definition is_hex_digit (c : ascii) : bool :=
  match c with
  | "0" | "1" | "2" | "3" | "4" | "5" | "6" | "7" | "8" | "9"
  | "a" | "b" | "c" | "d" | "e" | "f" => true
  | _ => false
  end%char.

Definition hex_value (c : ascii) : N :=
  match c with
  | "0" => 0 | "1" => 1 | "2" => 2 | "3" => 3 | "4" => 4
  | "5" => 5 | "6" => 6 | "7" => 7 | "8" => 8 | "9" => 9
  | "a" => 10 | "b" => 11 | "c" => 12 | "d" => 13 | "e" => 14
  | _ => 15
  end%char%N.

(** The order of [getInvitations] compares any two invitations, and chains. *)
#[global] Instance newer_first_total : Total newer_first.
Proof. intros a b. unfold newer_first, ts_le, ts_lt. lia. Defined.

#[global] Instance newer_first_transitive : Transitive newer_first.
Proof. intros a b c. unfold newer_first, ts_le, ts_lt. lia. Defined.

(** Every invitation sits under the document id that its [id] field names. *)
Definition keyed_by_id (st : Store) : Prop :=
  ∀ k d, invitations st !! k = Some d → inv_id d = k.

(** No address has two pending invitations. *)
Definition one_pending_per_email (st : Store) : Prop :=
  ∀ k1 k2 d1 d2,
    invitations st !! k1 = Some d1 → invitations st !! k2 = Some d2 →
    inv_email d1 = inv_email d2 →
    inv_status d1 = "pending" → inv_status d2 = "pending" → k1 = k2.

(** A record is pending and carries no acceptance data, or it is accepted
    and carries both the time and the user. *)
Definition acceptance_recorded (d : Invitation) : Prop :=
  (inv_status d = "pending" ∧ inv_acceptedAt d = None ∧ inv_acceptedBy d = None) ∨
  (inv_status d = "accepted" ∧ is_Some (inv_acceptedAt d) ∧ is_Some (inv_acceptedBy d)).

(** The token of a record has the format of the generator. *)
Definition token_well_formed (d : Invitation) : Prop :=
  String.length (inv_token d) = 64%nat ∧
  Forall (λ c, is_hex_digit c = true) (String.list_ascii_of_string (inv_token d)).

(** The pieces of a stored record that every call keeps in shape. *)
Definition record_well_formed (k : string) (d : Invitation) : Prop :=
  inv_id d = k ∧ acceptance_recorded d ∧ token_well_formed d.

(** The form passes the three checks of [handleSubmit]. *)
Definition form_ok (pg : Page) : Prop :=
  pg_email pg ≠ "" ∧ pg_password pg ≠ "" ∧ pg_confirmPassword pg ≠ "" ∧
  pg_displayName pg ≠ "" ∧ pg_password pg = pg_confirmPassword pg ∧
  (6 ≤ js_length (pg_password pg))%nat.

#[global] Instance form_ok_dec pg : Decision (form_ok pg).
Proof. unfold form_ok. apply _. Defined.

(** The form as [handleSubmit] leaves it when a check fails. *)
Definition form_refused (why : string) (pg : Page) : Page :=
  setError why (setSuccess "" (setError "" pg)).

(** * Claims, as they are worded *)

(** The claim C1 as the specification words it: success exactly when a
    matching pending record exists whose [expiresAt] has not passed. *)
Definition verify_iff_unexpired_record env (token email : string) st : Prop :=
  valid (verifyInvitation env (mkRequest (mkVerifyData token email) None) st).1 ↔
  ∃ k inv, invitations st !! k = Some inv ∧
    inv_email inv = email ∧ inv_token inv = token ∧ inv_status inv = "pending" ∧
    ts_le (Timestamp_now env) (inv_expiresAt inv).

(** The claim C6 as the specification words it, for the records a call of
    [sendInvitations] adds: [expiresAt] is [createdAt] plus seven days. *)
Definition expiry_is_createdAt_plus_seven_days
    (env : nat → Env) (request : CallableRequest SendData) (st : Store) : Prop :=
  ∀ k d, invitations (sendInvitations env request st).2 !! k = Some d →
    invitations st !! k = None →
    inv_expiresAt d = ts_plus_seconds (inv_createdAt d) sevenDaysSeconds.



(** The claim C7 as it is worded: the store is unchanged, and a second call
    with the same inputs returns what the first returned. *)
Definition verify_twice_same_result (env env' : Env)
    (request : CallableRequest VerifyData) (st : Store) : Prop :=
  (verifyInvitation env request st).2 = st ∧
  verifyInvitation env' request (verifyInvitation env request st).2 =
  verifyInvitation env request st.


(** The claim C10 as it is worded: when the only invitation of an address is
    pending and expired, inviting the address again fails with the reason
    'Invitation already sent'. *)
Definition reinvite_reason_is_already_sent
    (env : nat → Env) (a : AuthData) (st : Store) (email : string) : Prop :=
  is_admin a st →
  (∃ k inv, invitations st !! k = Some inv ∧
     inv_email inv = email ∧ inv_status inv = "pending" ∧
     ts_lt (inv_expiresAt inv) (Timestamp_now (env 0%nat)) ∧
     ∀ k' d, invitations st !! k' = Some d → inv_email d = email → k' = k) →
  (sendInvitations env (mkRequest (mkSendData [email] None) (Some a)) st).1 =
    Ok {| success := []; failed := [mkFailed email "Invitation already sent"] |}.

(** * Sample stores, callers and environments *)

Definition sample_entropy : nat → Byte.byte := λ _, Byte.x2a.

(** A store with one pending invitation that expires at second 100 sharp. *)
Definition lapsed_invitation : Invitation :=
  {| inv_id := "d0"; inv_email := "a@x.org"; inv_token := "c0ffee";
     inv_status := "pending";
     inv_createdAt := Timestamp_fromDate 0; inv_createdBy := "coach@x.org";
     inv_expiresAt := Timestamp_fromDate 100000;
     inv_role := None; inv_updatedAt := None;
     inv_acceptedAt := None; inv_acceptedBy := None |}.

Definition lapsed_store : Store :=
  {| users := ∅; invitations := {[ "d0" := lapsed_invitation ]} |}.

(** Half a second after that expiry. *)
Definition half_second_late : Env :=
  {| Date_now := 100500; entropy := sample_entropy; autoId := "d9";
     serverTimestamp := Timestamp_fromDate 100500; sendMail := None |}.

(** The same invitation, when its address has registered meanwhile. *)
Definition registered_store : Store :=
  {| users := {[ "u7" := {| usr_email := Some "a@x.org"; usr_role := Some "athlete" |} ]};
     invitations := {[ "d0" := lapsed_invitation ]} |}.

(** A second record for the address and token of [lapsed_invitation]. *)
Definition open_invitation_d1 : Invitation :=
  {| inv_id := "d1"; inv_email := "a@x.org"; inv_token := "c0ffee";
     inv_status := "pending";
     inv_createdAt := Timestamp_fromDate 0; inv_createdBy := "coach@x.org";
     inv_expiresAt := Timestamp_fromDate 900000;
     inv_role := None; inv_updatedAt := None;
     inv_acceptedAt := None; inv_acceptedBy := None |}.

(** A store with one pending invitation, open until second 900. *)
Definition open_invitation : Invitation :=
  {| inv_id := "d0"; inv_email := "new@swim.org"; inv_token := "c0ffee";
     inv_status := "pending";
     inv_createdAt := Timestamp_fromDate 0; inv_createdBy := "coach@x.org";
     inv_expiresAt := Timestamp_fromDate 900000;
     inv_role := None; inv_updatedAt := None;
     inv_acceptedAt := None; inv_acceptedBy := None |}.

(** Two pending invitations with the same address and token: the one under
    "d0" expires in second 100, the one under "d1" in second 900. *)
Definition twin_store : Store :=
  {| users := ∅;
     invitations := {[ "d1" := open_invitation_d1; "d0" := lapsed_invitation ]} |}.

(** Second 200. *)
Definition long_past_d0 : Env :=
  {| Date_now := 200000; entropy := sample_entropy; autoId := "d9";
     serverTimestamp := Timestamp_fromDate 200000; sendMail := None |}.

Definition open_store : Store :=
  {| users := ∅; invitations := {[ "d0" := open_invitation ]} |}.


Definition coach : AuthData :=
  {| uid := "u1";
     auth_token := {| tok_role := Some "admin"; tok_email := "coach@x.org" |} |}.

(** The token made of the byte 0x2a, thirty-two times. *)
Definition sample_token : string :=
  "2a2a2a2a2a2a2a2a2a2a2a2a2a2a2a2a2a2a2a2a2a2a2a2a2a2a2a2a2a2a2a2a".

(** Three addresses, the second mail bounces, the third repeats the first. *)
Definition sample_envs (i : nat) : Env :=
  {| Date_now := 1000; entropy := sample_entropy;
     autoId := match i with O => "d0" | 1%nat => "d1" | _ => "d2" end;
     serverTimestamp := {| seconds := 1; nanoseconds := 5000000 |};
     sendMail := match i with 1%nat => Some "SMTP down" | _ => None end |}.

Definition sample_batch : CallableRequest SendData :=
  mkRequest (mkSendData ["a@x.org"; "b@x.org"; "a@x.org"] None) (Some coach).

Definition empty_store : Store := {| users := ∅; invitations := ∅ |}.

(** The invitation of [lapsed_store], long expired. *)
Definition long_after : nat → Env := λ _,
  {| Date_now := 999999000; entropy := sample_entropy; autoId := "d7";
     serverTimestamp := Timestamp_fromDate 999999000; sendMail := None |}.




Definition sample_history : list Call :=
  [CallSend sample_envs sample_batch;
   CallResend (sample_envs 2) (mkRequest "d0" (Some coach))].

(** A resend of the first invitation of the sample batch, one minute later. *)
Definition minute_later : Env :=
  {| Date_now := 61000; entropy := sample_entropy; autoId := "d8";
     serverTimestamp := {| seconds := 61; nanoseconds := 7000000 |}; sendMail := None |}.


(** An invitation is sent, accepted, and the address is invited once more. *)
Definition reinvite_history : list Call :=
  [CallSend sample_envs (mkRequest (mkSendData ["a@x.org"] None) (Some coach));
   CallAccept half_second_late (mkRequest (mkAcceptData "d0" "a@x.org") None);
   CallSend (λ i, sample_envs (S i))
     (mkRequest (mkSendData ["a@x.org"] None) (Some coach))].


(** The client shows the message of the error as it is. *)
Definition plain_sdk : JsError → string := message.

(** A [register] that writes the new user document and nothing else. *)
Definition sample_register : RegisterFn := λ email _ _ role st,
  (Registered,
   {| users := <[email := {| usr_email := Some email; usr_role := Some role |}]> (users st);
      invitations := invitations st |}).

(** A [register] that finds the address taken. *)
Definition taken_register : RegisterFn := λ _ _ _ _ st,
  (Rejected (Some "auth/email-already-in-use"), st).

(** The page of a visitor who opened the link of [open_store] and typed a
    name and a password. *)
Definition filled_page : Page :=
  setConfirmPassword "dolphin1"
    (setPassword "dolphin1"
       (setDisplayName "New Swimmer"
          (verifyToken plain_sdk half_second_late None (Some "c0ffee")
             (Some "new@swim.org") initial_page open_store).1)).

(** The same page with a password of five letters, one of them accented:
    six bytes, a [length] of five. *)
Definition accented_page : Page :=
  setConfirmPassword "pässw" (setPassword "pässw" filled_page).

(** * Properties *)

(** ** Queries *)

(** The order on document ids is a total order. *)
Lemma ascii_compare_trans (a b c : ascii) :
  Ascii.compare a b = Lt → Ascii.compare b c = Lt → Ascii.compare a c = Lt.
Proof.
  unfold Ascii.compare. rewrite !N.compare_lt_iff. lia.
Qed.

Lemma string_compare_refl (s : string) : String.compare s s = Eq.
Proof.
  induction s as [|a s IH]; [done|]. simpl.
  unfold Ascii.compare. by rewrite N.compare_refl.
Qed.

Lemma string_compare_lt_trans (s1 s2 s3 : string) :
  String.compare s1 s2 = Lt → String.compare s2 s3 = Lt → String.compare s1 s3 = Lt.
Proof.
  revert s2 s3. induction s1 as [|a s1 IH]; intros [|b s2] [|c s3]; simpl; try done.
  destruct (Ascii.compare a b) eqn:Hab; [|clear IH|done].
  - apply Ascii.compare_eq_iff in Hab as ->.
    destruct (Ascii.compare b c); [apply IH|done|done].
  - intros _. destruct (Ascii.compare b c) eqn:Hbc; [| |done].
    + apply Ascii.compare_eq_iff in Hbc as <-. by rewrite Hab.
    + by rewrite (ascii_compare_trans a b c).
Qed.

Lemma id_le_compare (a b : string) : id_le a b ↔ String.compare a b ≠ Gt.
Proof.
  unfold id_le, String.leb. destruct (String.compare a b); naive_solver.
Qed.

#[global] Instance id_le_refl : Reflexive id_le.
Proof. intros s. apply id_le_compare. by rewrite string_compare_refl. Qed.

#[global] Instance id_le_trans : Transitive id_le.
Proof.
  intros a b c. rewrite !id_le_compare. intros Hab Hbc.
  destruct (String.compare a b) eqn:E1; [| |done].
  - by apply String.compare_eq_iff in E1 as ->.
  - destruct (String.compare b c) eqn:E2; [| |done].
    + apply String.compare_eq_iff in E2 as <-. by rewrite E1.
    + by rewrite (string_compare_lt_trans a b c).
Qed.

#[global] Instance id_le_total : Total id_le.
Proof. intros a b. apply String.leb_total. Qed.

#[global] Instance id_le_antisym : AntiSymm (=) id_le.
Proof. intros a b. apply String.leb_antisym. Qed.

#[global] Instance by_document_id_trans {A} : Transitive (@by_document_id A).
Proof. intros a b c. unfold by_document_id. apply id_le_trans. Qed.

#[global] Instance by_document_id_total {A} : Total (@by_document_id A).
Proof. intros a b. unfold by_document_id. apply id_le_total. Qed.

Section Queries.
Context {A : Type} (P : A → Prop) `{∀ x, Decision (P x)}.

Lemma where_listed (c : gmap string A) :
  where_ P c ≡ₚ (map_to_list (filter (λ d, P d.2) c)).*2.
Proof. unfold where_. by rewrite merge_sort_Permutation. Qed.

Lemma where_spec (c : gmap string A) (x : A) :
  x ∈ where_ P c ↔ P x ∧ ∃ k, c !! k = Some x.
Proof.
  rewrite where_listed, list_elem_of_fmap. split.
  - intros [[k y] [-> Hin]].
    apply elem_of_map_to_list, map_lookup_filter_Some in Hin as [Hk HP].
    eauto.
  - intros [HP [k Hk]]. exists (k, x). split; [done|].
    by apply elem_of_map_to_list, map_lookup_filter_Some.
Qed.

Lemma where_nil (c : gmap string A) :
  where_ P c = [] ↔ ∀ k x, c !! k = Some x → ¬ P x.
Proof.
  split.
  - intros Hnil k x Hk HP.
    assert (x ∈ where_ P c) as Hin by (apply where_spec; eauto).
    rewrite Hnil in Hin. by apply not_elem_of_nil in Hin.
  - intros Hnone. destruct (where_ P c) as [|x l] eqn:E; [done|].
    assert (x ∈ where_ P c) as Hin by (rewrite E; apply list_elem_of_here).
    apply where_spec in Hin as [HP [k Hk]]. by destruct (Hnone k x).
Qed.

Lemma where_head (c : gmap string A) (x : A) :
  head (where_ P c) = Some x → P x ∧ ∃ k, c !! k = Some x.
Proof.
  intros Hh. apply where_spec.
  destruct (where_ P c) as [|y l]; simplify_eq/=. apply list_elem_of_here.
Qed.

(** When one document only passes the filter, the query lists it alone. *)
Lemma where_unique (c : gmap string A) (k : string) (x : A) :
  c !! k = Some x → P x →
  (∀ k' y, c !! k' = Some y → P y → k' = k) →
  where_ P c = [x].
Proof.
  intros Hk HP Huniq. unfold where_.
  assert (filter (λ d : string * A, P d.2) c = {[k := x]}) as ->.
  { apply map_eq. intros j. destruct (decide (j = k)) as [->|Hne].
    - rewrite lookup_singleton_eq. by apply map_lookup_filter_Some.
    - rewrite lookup_singleton_ne by done.
      apply map_lookup_filter_None. right. intros y Hj HPy.
      by apply Hne, (Huniq j y). }
  by rewrite map_to_list_singleton.
Qed.

(** The first document of a query is the one that passes the filter under
    the least document id. *)
Lemma where_head_least (c : gmap string A) (x : A) :
  head (where_ P c) = Some x ↔
  ∃ k, c !! k = Some x ∧ P x ∧ ∀ k' y, c !! k' = Some y → P y → id_le k k'.
Proof.
  unfold where_.
  pose proof (StronglySorted_merge_sort by_document_id
                (map_to_list (filter (λ d : string * A, P d.2) c))) as Hsorted.
  pose proof (merge_sort_Permutation by_document_id
                (map_to_list (filter (λ d : string * A, P d.2) c))) as Hperm.
  assert (∀ k y, (k, y) ∈ merge_sort by_document_id
                    (map_to_list (filter (λ d : string * A, P d.2) c)) ↔
                 c !! k = Some y ∧ P y) as Hin.
  { intros k y. rewrite Hperm, elem_of_map_to_list. apply map_lookup_filter_Some. }
  destruct (merge_sort _ _) as [|[k0 x0] l]; simpl.
  - split; [done|]. intros (k & Hk & HP & _).
    pose proof (proj2 (Hin k x) (conj Hk HP)) as Hel.
    by apply not_elem_of_nil in Hel.
  - apply StronglySorted_inv in Hsorted as [_ Hleast].
    assert (c !! k0 = Some x0 ∧ P x0) as [Hk0 HP0]
      by (apply Hin, list_elem_of_here).
    assert (∀ k' y, c !! k' = Some y → P y → id_le k0 k') as Hmin.
    { intros k' y Hk' HPy. pose proof (proj2 (Hin k' y) (conj Hk' HPy)) as Hel.
      apply elem_of_cons in Hel as [[= -> ->]|Hel]; [apply id_le_refl|].
      rewrite Forall_forall in Hleast. exact (Hleast _ Hel). }
    split.
    + intros [= <-]. eauto.
    + intros (k & Hk & HP & Hle).
      assert (k = k0) as -> by (apply (anti_symm id_le); eauto).
      congruence.
Qed.
Lemma limit1_head (l : list A) :
  limit1 l = match head l with Some x => [x] | None => [] end.
Proof. by destruct l. Qed.

Lemma empty_snapshot_limit1 (l : list A) :
  empty_snapshot (limit1 l) = empty_snapshot l.
Proof. by destruct l. Qed.

Lemma empty_snapshot_true (l : list A) : empty_snapshot l = true ↔ l = [].
Proof. by destruct l. Qed.
End Queries.

(** ** Small facts on values *)

Lemma truthy_true (s : string) : truthy s = true ↔ s ≠ "".
Proof.
  unfold truthy. rewrite negb_true_iff. split.
  - intros Hs ->. by rewrite String.eqb_refl in Hs.
  - intros Hs. by apply String.eqb_neq.
Qed.

Lemma truthy_false (s : string) : truthy s = false ↔ s = "".
Proof.
  unfold truthy. rewrite negb_false_iff. apply String.eqb_eq.
Qed.

Lemma hex_digit_is_hex (n : N) : is_hex_digit (hex_digit n) = true.
Proof.
  destruct n as [|p]; [reflexivity|].
  do 5 (try destruct p as [p|p|]; try reflexivity).
Qed.

Lemma hex_value_hex_digit (n : N) : (n < 16)%N → hex_value (hex_digit n) = n.
Proof.
  intros Hn. destruct n as [|p]; [reflexivity|].
  do 5 (try destruct p as [p|p|]; try reflexivity; try lia).
Qed.

Lemma toString_hex_length (buf : list Byte.byte) :
  String.length (toString_hex buf) = (2 * length buf)%nat.
Proof. induction buf as [|b buf IH]; simpl; [done|]. rewrite IH. lia. Qed.

Lemma toString_hex_digits (buf : list Byte.byte) :
  Forall (λ c, is_hex_digit c = true) (String.list_ascii_of_string (toString_hex buf)).
Proof.
  induction buf as [|b buf IH]; simpl; [constructor|].
  repeat constructor; auto using hex_digit_is_hex.
Qed.

Lemma byte_of_nibbles (b1 b2 : Byte.byte) :
  hex_digit (Byte.to_N b1 / 16) = hex_digit (Byte.to_N b2 / 16) →
  hex_digit (Byte.to_N b1 mod 16) = hex_digit (Byte.to_N b2 mod 16) →
  b1 = b2.
Proof.
  intros Hhi Hlo.
  pose proof (Byte.to_N_bounded b1) as Hb1. pose proof (Byte.to_N_bounded b2) as Hb2.
  apply (f_equal hex_value) in Hhi, Hlo.
  rewrite !hex_value_hex_digit in Hhi, Hlo
    by (try (apply N.Div0.div_lt_upper_bound; lia); apply N.mod_lt; lia).
  assert (Byte.to_N b1 = Byte.to_N b2) as Heq.
  { rewrite (N.div_mod (Byte.to_N b1) 16), (N.div_mod (Byte.to_N b2) 16) by lia.
    by rewrite Hhi, Hlo. }
  apply (f_equal Byte.of_N) in Heq. rewrite !Byte.of_to_N in Heq. congruence.
Qed.

Lemma toString_hex_inj (buf1 buf2 : list Byte.byte) :
  toString_hex buf1 = toString_hex buf2 → buf1 = buf2.
Proof.
  revert buf2. induction buf1 as [|b1 buf1 IH]; intros [|b2 buf2]; simpl; try done.
  intros [= Hhi Hlo Hrest]. f_equal; [by apply byte_of_nibbles | by apply IH].
Qed.

Lemma generateToken_nonempty (env : Env) : generateToken env ≠ "".
Proof. unfold generateToken, randomBytes. simpl. discriminate. Qed.

Lemma generateToken_length (env : Env) : String.length (generateToken env) = 64%nat.
Proof. unfold generateToken, randomBytes. reflexivity. Qed.

Lemma fromDate_plus_sevenDays (ms : Z) :
  Timestamp_fromDate (ms + sevenDays) =
  ts_plus_seconds (Timestamp_fromDate ms) sevenDaysSeconds.
Proof.
  unfold Timestamp_fromDate, ts_plus_seconds, sevenDays, sevenDaysSeconds. simpl.
  replace (ms + 7 * 24 * 60 * 60 * 1000) with (ms + 604800 * 1000) by lia.
  rewrite Z.div_add by lia.
  f_equal; lia.
Qed.

Lemma fromDate_lt (t1 t2 : Z) :
  t1 < t2 → ts_lt (Timestamp_fromDate t1) (Timestamp_fromDate t2).
Proof.
  intros Hlt. unfold ts_lt, Timestamp_fromDate. simpl.
  assert (t1 / 1000 ≤ t2 / 1000) as Hq by (apply Z.div_le_mono; lia).
  destruct (decide (t1 / 1000 = t2 / 1000)) as [Heq|Hne]; [right|left; lia].
  split; [done|]. rewrite Heq. lia.
Qed.

(** ** verifyInvitation *)

Ltac run_fn :=
  unfold bind, try_catch, ret, throw, rethrow,
    invitations_where_token, invitations_where_pending, users_where_email,
    invitations_doc_get, users_doc_get, invitations_set, invitations_update,
    invitations_delete; simpl.

(** Without a token or without an address the function throws before it
    reads the store. *)
Lemma verifyInvitation_requires_inputs env (request : CallableRequest VerifyData) st :
  v_token (data request) = "" ∨ v_email (data request) = "" →
  verifyInvitation env request st =
    (Throw (Error "Invalid request: token and email are required"), st).
Proof.
  intros Hempty. unfold verifyInvitation.
  destruct Hempty as [-> | ->]; simpl; [done|].
  by rewrite orb_true_r.
Qed.

(** With both, it answers from the first document of its query. *)
Lemma verifyInvitation_unfold env (request : CallableRequest VerifyData) st :
  v_token (data request) ≠ "" → v_email (data request) ≠ "" →
  verifyInvitation env request st =
    (match head (where_ (matches (v_email (data request)) (v_token (data request)))
                   (invitations st)) with
     | None => Ok (NotValid "Invalid or expired invitation")
     | Some inv =>
         if bool_decide (seconds (inv_expiresAt inv) < seconds (Timestamp_now env))
         then Ok (NotValid "Invitation has expired")
         else Ok (Valid (inv_id inv) (inv_email inv) (js_or (inv_role inv) "supporter"))
     end, st).
Proof.
  intros Ht He. unfold verifyInvitation.
  apply truthy_true in Ht, He. rewrite Ht, He. simpl.
  run_fn. rewrite limit1_head.
  destruct (head _) as [inv|]; [|done].
  by case_bool_decide.
Qed.

Lemma verifyInvitation_store env (request : CallableRequest VerifyData) st :
  (verifyInvitation env request st).2 = st.
Proof.
  destruct (decide (v_token (data request) = "")) as [Ht|Ht].
  { rewrite verifyInvitation_requires_inputs; auto. }
  destruct (decide (v_email (data request) = "")) as [He|He].
  { rewrite verifyInvitation_requires_inputs; auto. }
  by rewrite verifyInvitation_unfold.
Qed.

(** C1, counterexample: half a second after [expiresAt] the invitation still
    verifies, because only the [seconds] fields are compared. *)
Lemma verifyInvitation_accepts_within_expiry_second :
  ¬ verify_iff_unexpired_record half_second_late "c0ffee" "a@x.org" lapsed_store.
Proof.
  unfold verify_iff_unexpired_record. intros [Hvalid _].
  destruct Hvalid as (k & inv & Hk & _ & _ & _ & Hle).
  { by vm_compute. }
  simpl in Hk. apply lookup_singleton_Some in Hk as [_ <-].
  apply Hle. vm_compute. right. split; [done|]. reflexivity.
Qed.

(** An invitation written for the empty address cannot be verified. *)
Example verifyInvitation_empty_email :
  let inv := {| inv_id := "d0"; inv_email := ""; inv_token := "c0ffee";
                inv_status := "pending";
                inv_createdAt := Timestamp_fromDate 0; inv_createdBy := "coach@x.org";
                inv_expiresAt := Timestamp_fromDate 900000;
                inv_role := None; inv_updatedAt := None;
                inv_acceptedAt := None; inv_acceptedBy := None |} in
  verifyInvitation half_second_late (mkRequest (mkVerifyData "c0ffee" "") None)
    {| users := ∅; invitations := {[ "d0" := inv ]} |}
  = (Throw (Error "Invalid request: token and email are required"),
     {| users := ∅; invitations := {[ "d0" := inv ]} |}).
Proof. reflexivity. Qed.

(** The query of [verifyInvitation] answers with the record under the least
    document id, also when a later one is still open: here the record "d0"
    has expired and "d1", with the same address and token, has not. *)
Example verifyInvitation_answers_from_least_id :
  verifyInvitation long_past_d0 (mkRequest (mkVerifyData "c0ffee" "a@x.org") None)
    twin_store
  = (Ok (NotValid "Invitation has expired"), twin_store).
Proof. reflexivity. Qed.

Lemma verifyInvitation_selected (request : CallableRequest VerifyData) st inv :
  head (where_ (matches (v_email (data request)) (v_token (data request)))
          (invitations st)) = Some inv ↔
  selected (v_email (data request)) (v_token (data request)) st inv.
Proof. apply where_head_least. Qed.

(** C1, amended: without a token or without an address [verifyInvitation]
    throws 'Invalid request: token and email are required'. With both, it
    returns [valid: true] exactly when the record its query selects (among
    the pending records that match both, the one under the least document
    id) has [expiresAt.seconds >= now.seconds]; a success always comes from
    such a stored record, and when one record only matches, the existence of
    such a record is enough. Every other outcome is [{valid: false, error}]:
    'Invitation has expired' when the selected record is past its expiry
    second, 'Invalid or expired invitation' when no record matches. *)
Theorem verifyInvitation_valid_iff env (token email : string) a st :
  let run := verifyInvitation env (mkRequest (mkVerifyData token email) a) st in
  let r := run.1 in
  let now := Timestamp_now env in
  (token = "" ∨ email = "" →
     run = (Throw (Error "Invalid request: token and email are required"), st)) ∧
  (token ≠ "" → email ≠ "" →
     (valid r ↔ ∃ inv, selected email token st inv ∧ live_at now inv) ∧
     (valid r →
        ∃ k inv, invitations st !! k = Some inv ∧ matches email token inv ∧
                 live_at now inv) ∧
     ((∀ k1 k2 d1 d2, invitations st !! k1 = Some d1 → invitations st !! k2 = Some d2 →
         matches email token d1 → matches email token d2 → k1 = k2) →
      (∃ k inv, invitations st !! k = Some inv ∧ matches email token inv ∧
                live_at now inv) →
      valid r) ∧
     (∀ inv, selected email token st inv → ¬ live_at now inv →
        r = Ok (NotValid "Invitation has expired")) ∧
     ((∀ k d, invitations st !! k = Some d → ¬ matches email token d) →
        r = Ok (NotValid "Invalid or expired invitation")) ∧
     (¬ valid r →
        r = Ok (NotValid "Invalid or expired invitation") ∨
        r = Ok (NotValid "Invitation has expired"))).
Proof.
  intros run r now. subst run r now. split.
  { intros Hempty. by apply verifyInvitation_requires_inputs. }
  intros Ht He.
  rewrite verifyInvitation_unfold by done. simpl. unfold live_at.
  pose proof (verifyInvitation_selected (mkRequest (mkVerifyData token email) a) st)
    as Hsel. simpl in Hsel.
  assert (valid
    (match head (where_ (matches email token) (invitations st)) with
     | Some inv =>
         if bool_decide (seconds (inv_expiresAt inv) < seconds (Timestamp_now env))
         then Ok (NotValid "Invitation has expired")
         else Ok (Valid (inv_id inv) (inv_email inv) (js_or (inv_role inv) "supporter"))
     | None => Ok (NotValid "Invalid or expired invitation")
     end) ↔
    ∃ inv, head (where_ (matches email token) (invitations st)) = Some inv ∧
           seconds (Timestamp_now env) ≤ seconds (inv_expiresAt inv)) as Hfirst.
  { destruct (head _) as [inv|]; simpl.
    - case_bool_decide; simpl.
      + split; [done|]. intros (d & [= <-] & Hle). lia.
      + split; [|done]. intros _. exists inv. split; [done|lia].
    - split; [done|]. by intros (d & [=] & _). }
  split; [|split; [|split; [|split; [|split]]]].
  - rewrite Hfirst. split; intros (inv & Hh & Hle); exists inv; split; try done;
      by apply Hsel.
  - intros Hv. apply Hfirst in Hv as (inv & Hhead & Hle).
    apply where_head in Hhead as [Hm [k Hk]]. eauto.
  - intros Huniq (k & inv & Hk & Hm & Hle). apply Hfirst.
    exists inv. split; [|done].
    rewrite (where_unique _ _ k inv); eauto.
  - intros inv Hselected Hpast. apply Hsel in Hselected. rewrite Hselected.
    case_bool_decide; [done|]. destruct Hpast.
    unfold Timestamp_now in *. simpl in *. lia.
  - intros Hnone.
    assert (where_ (matches email token) (invitations st) = []) as ->
      by (by apply where_nil).
    done.
  - intros Hnv. destruct (head _) as [inv|]; simpl in *; [|by left].
    case_bool_decide; [by right|]. by destruct Hnv.
Qed.

Lemma verifyInvitation_valid_iff_witness :
  let r := (verifyInvitation half_second_late
              (mkRequest (mkVerifyData "c0ffee" "a@x.org") None) lapsed_store).1 in
  valid r ∧
  ∃ k inv, invitations lapsed_store !! k = Some inv ∧
           matches "a@x.org" "c0ffee" inv ∧
           live_at (Timestamp_now half_second_late) inv.
Proof.
  pose proof (verifyInvitation_valid_iff half_second_late "c0ffee" "a@x.org" None
                lapsed_store) as H.
  simpl in H. destruct H as (_ & H).
  destruct (H ltac:(discriminate) ltac:(discriminate)) as (_ & Hsound & _).
  assert (valid (verifyInvitation half_second_late
                   (mkRequest (mkVerifyData "c0ffee" "a@x.org") None) lapsed_store).1)
    as Hv by (vm_compute; exact I).
  split; [exact Hv|]. exact (Hsound Hv).
Defined.

(** C7, counterexample: the same token and address, verified in the second
    in which the invitation expires and again later, get [valid: true] the
    first time and 'Invitation has expired' the second. *)
Lemma verifyInvitation_twice_across_expiry :
  ¬ verify_twice_same_result half_second_late (long_after 0%nat)
      (mkRequest (mkVerifyData "c0ffee" "a@x.org") None) lapsed_store.
Proof. unfold verify_twice_same_result. intros [_ Hsame]. vm_compute in Hsame. discriminate. Qed.

(** C7, amended: [verifyInvitation] leaves the store as it found it, whatever
    the inputs. A second call with the same token and address returns what
    the first returned whenever the record the query selects is on the same
    side of its expiry second at both clock readings; when the two calls
    differ, that record has passed its expiry second between them: one call
    answered [valid: true] and the other 'Invitation has expired'. *)
Theorem verifyInvitation_reads_only env (request : CallableRequest VerifyData) st :
  let email := v_email (data request) in
  let token := v_token (data request) in
  let first := verifyInvitation env request st in
  first.2 = st ∧
  ∀ env',
    let second := verifyInvitation env' request first.2 in
    let now := Timestamp_now env in
    let now' := Timestamp_now env' in
    second.2 = st ∧
    ((∀ inv, selected email token st inv → (live_at now inv ↔ live_at now' inv)) →
     second = first) ∧
    (second ≠ first →
     ∃ inv, selected email token st inv ∧
       ((live_at now inv ∧ ¬ live_at now' inv ∧ valid first.1 ∧
         second.1 = Ok (NotValid "Invitation has expired")) ∨
        (live_at now' inv ∧ ¬ live_at now inv ∧ valid second.1 ∧
         first.1 = Ok (NotValid "Invitation has expired")))).
Proof.
  intros email token first. subst email token first.
  split; [apply verifyInvitation_store|].
  intros env'. cbv zeta. rewrite !verifyInvitation_store.
  split; [done|].
  destruct (decide (v_token (data request) = "")) as [Ht|Ht].
  { rewrite !verifyInvitation_requires_inputs by auto. split; [done|]. by intros []. }
  destruct (decide (v_email (data request) = "")) as [He|He].
  { rewrite !verifyInvitation_requires_inputs by auto. split; [done|]. by intros []. }
  rewrite !verifyInvitation_unfold by done.
  pose proof (verifyInvitation_selected request st) as Hsel.
  unfold live_at. destruct (head _) as [inv|] eqn:Hhead; simpl.
  - assert (selected (v_email (data request)) (v_token (data request)) st inv)
      as Hselected by (by apply Hsel).
    split.
    + intros Hside. specialize (Hside inv Hselected).
      unfold Timestamp_now in *. simpl in *.
      destruct Hside as [Hs1 Hs2].
      repeat case_bool_decide; try done; exfalso; lia.
    + intros Hdiff. exists inv. split; [done|].
      unfold Timestamp_now in *. simpl in *.
      repeat case_bool_decide; try done;
        first [ left; repeat split; simpl; try done; lia
              | right; repeat split; simpl; try done; lia ].
  - split; [done|]. by intros [].
Qed.

Lemma verifyInvitation_reads_only_witness :
  (verifyInvitation half_second_late
     (mkRequest (mkVerifyData "c0ffee" "a@x.org") None) lapsed_store).2 = lapsed_store ∧
  verifyInvitation minute_later
    (mkRequest (mkVerifyData "c0ffee" "a@x.org") None)
    (verifyInvitation half_second_late
       (mkRequest (mkVerifyData "c0ffee" "a@x.org") None) lapsed_store).2 =
  verifyInvitation half_second_late
    (mkRequest (mkVerifyData "c0ffee" "a@x.org") None) lapsed_store.
Proof.
  destruct (verifyInvitation_reads_only half_second_late
              (mkRequest (mkVerifyData "c0ffee" "a@x.org") None) lapsed_store)
    as [Hstore Hagain].
  split; [exact Hstore|].
  destruct (Hagain minute_later) as (_ & Hsame & _). apply Hsame.
  intros inv (k & Hk & _). simpl in Hk.
  apply lookup_singleton_Some in Hk as [_ <-]. vm_compute. split; intros _ Hgt; discriminate.
Defined.

(** ** acceptInvitation *)

Lemma acceptInvitation_requires_inputs env (request : CallableRequest AcceptData) st :
  a_invitationId (data request) = "" ∨ a_userId (data request) = "" →
  acceptInvitation env request st =
    (Throw (Error "Invalid request: invitationId and userId are required"), st).
Proof.
  intros Hempty. unfold acceptInvitation.
  destruct Hempty as [-> | ->]; simpl; [done|].
  by rewrite orb_true_r.
Qed.

Lemma acceptInvitation_unfold env (request : CallableRequest AcceptData) st :
  a_invitationId (data request) ≠ "" → a_userId (data request) ≠ "" →
  acceptInvitation env request st =
    match invitations st !! a_invitationId (data request) with
    | None => (Throw (Error "Failed to accept invitation: Invitation not found"), st)
    | Some invitation =>
        if bool_decide (inv_status invitation = "pending") then
          if bool_decide (seconds (inv_expiresAt invitation) < seconds (Timestamp_now env))
          then (Throw (Error "Failed to accept invitation: Invitation has expired"), st)
          else (Ok success_true,
                {| users := users st;
                   invitations :=
                     <[a_invitationId (data request) :=
                         accepted_by env (a_userId (data request)) invitation]>
                       (invitations st) |})
        else (Throw (Error "Failed to accept invitation: Invitation has already been used"), st)
    end.
Proof.
  intros Hi Hu. unfold acceptInvitation.
  apply truthy_true in Hi, Hu. rewrite Hi, Hu. simpl.
  run_fn. destruct (invitations st !! _) as [inv|] eqn:Hdoc; [|done].
  case_bool_decide; simpl; [|done].
  case_bool_decide; simpl; [done|].
  do 2 f_equal. apply map_eq. intros j.
  rewrite lookup_alter, lookup_insert.
  case_decide; [subst j; by rewrite Hdoc | done].
Qed.

(** A call that returned had an id and a user id, found the record pending
    and not past its expiry second, and rewrote it. *)
Lemma acceptInvitation_success env (request : CallableRequest AcceptData) st st' ok :
  acceptInvitation env request st = (Ok ok, st') →
  a_invitationId (data request) ≠ "" ∧ a_userId (data request) ≠ "" ∧
  ∃ inv, invitations st !! a_invitationId (data request) = Some inv ∧
    inv_status inv = "pending" ∧ live_at (Timestamp_now env) inv ∧
    st' = {| users := users st;
             invitations := <[a_invitationId (data request) :=
                                accepted_by env (a_userId (data request)) inv]>
                              (invitations st) |}.
Proof.
  intros Hrun.
  destruct (decide (a_invitationId (data request) = "")) as [Hi|Hi].
  { rewrite acceptInvitation_requires_inputs in Hrun; auto. discriminate. }
  destruct (decide (a_userId (data request) = "")) as [Hu|Hu].
  { rewrite acceptInvitation_requires_inputs in Hrun; auto. discriminate. }
  rewrite acceptInvitation_unfold in Hrun by done.
  destruct (invitations st !! _) as [inv|] eqn:Hdoc; [|discriminate].
  repeat case_bool_decide; simplify_eq.
  repeat split; try done. exists inv. unfold live_at. repeat split; try done. lia.
Qed.




(** ** The administrator check *)

Lemma requireAdmin_unfold (a : AuthData) (what : string) st :
  requireAdmin a what st =
    if decide (is_admin a st) then (Ok tt, st)
    else (Throw (Error ("Unauthorized: Only admins can " +:+ what)), st).
Proof.
  unfold requireAdmin. destruct (decide (is_admin a st)) as [[Hclaim|Hdoc]|Hno].
  - by rewrite Hclaim.
  - destruct (negb _ || negb _); [|done]. run_fn.
    destruct (users st !! uid a) as [u|]; simpl in *; [|done].
    by rewrite bool_decide_eq_true_2.
  - assert (tok_role (auth_token a) ≠ Some "admin") as Hclaim
      by (intros ?; apply Hno; by left).
    assert ((users st !! uid a) ≫= usr_role ≠ Some "admin") as Hdoc
      by (intros ?; apply Hno; by right).
    rewrite (bool_decide_eq_false_2 _ Hclaim), orb_true_r. run_fn.
    destruct (users st !! uid a) as [u|]; simpl in *; [|done].
    by rewrite bool_decide_eq_false_2.
Qed.

(** ** resendInvitation *)

Lemma resendInvitation_unfold env (invitationId : string) a st :
  is_admin a st →
  resendInvitation env (mkRequest invitationId (Some a)) st =
    match invitations st !! invitationId with
    | None => (Throw (Error "Failed to resend invitation: Invitation not found"), st)
    | Some inv =>
        if bool_decide (inv_status inv = "pending") then
          (match sendMail env with
           | None => Ok success_true
           | Some m => Throw (Error ("Failed to resend invitation: " +:+ m))
           end,
           {| users := users st;
              invitations := <[invitationId := reissued env inv]> (invitations st) |})
        else
          (Throw (Error ("Failed to resend invitation: Cannot resend an invitation " +:+
                         "that has already been accepted")), st)
    end.
Proof.
  intros Hadmin. unfold resendInvitation, requireAuth. simpl.
  unfold bind at 1. unfold ret at 1. unfold try_catch, bind at 1.
  rewrite requireAdmin_unfold, decide_True by done.
  run_fn. destruct (invitations st !! invitationId) as [inv|] eqn:Hdoc; [|done].
  case_bool_decide; simpl; [|done].
  assert (alter (reissued env) invitationId (invitations st)
          = <[invitationId := reissued env inv]> (invitations st)) as Halter.
  { apply map_eq. intros j. rewrite lookup_alter, lookup_insert.
    case_decide; [subst j; by rewrite Hdoc | done]. }
  unfold transporter_sendMail.
  destruct (sendMail env); run_fn; by rewrite Halter.
Qed.

(** A resend that returned was made by an administrator on a pending
    record, which it replaced; the mail went out. *)
Lemma resendInvitation_success env (request : CallableRequest string) st st' ok :
  resendInvitation env request st = (Ok ok, st') →
  ∃ a inv, auth request = Some a ∧ is_admin a st ∧
    invitations st !! data request = Some inv ∧ inv_status inv = "pending" ∧
    sendMail env = None ∧
    st' = {| users := users st;
             invitations := <[data request := reissued env inv]> (invitations st) |}.
Proof.
  destruct request as [invitationId [a|]]; simpl; intros Hrun.
  - destruct (decide (is_admin a st)) as [Hadmin|Hno].
    + rewrite resendInvitation_unfold in Hrun by done.
      destruct (invitations st !! invitationId) as [inv|] eqn:Hdoc; [|discriminate].
      case_bool_decide; [|discriminate].
      destruct (sendMail env) eqn:Hmail; simplify_eq.
      exists a, inv. repeat split; done.
    + unfold resendInvitation, requireAuth in Hrun. simpl in Hrun.
      unfold bind at 1 in Hrun. unfold ret at 1 in Hrun.
      unfold try_catch, bind at 1 in Hrun.
      rewrite requireAdmin_unfold, decide_False in Hrun by done.
      discriminate.
  - discriminate.
Qed.


(** The condition on the bytes is needed: a resend that draws the bytes of
    the first token again leaves the token as it was, and the old token
    verifies as before. *)
Example resend_with_repeated_bytes_keeps_token :
  let sent := (sendInvitations sample_envs
                 (mkRequest (mkSendData ["a@x.org"] None) (Some coach)) empty_store).2 in
  let resent := resendInvitation minute_later (mkRequest "d0" (Some coach)) sent in
  resent.1 = Ok success_true ∧
  verifyInvitation minute_later (mkRequest (mkVerifyData sample_token "a@x.org") None) sent
  = (Ok (Valid "d0" "a@x.org" "supporter"), sent) ∧
  verifyInvitation minute_later
    (mkRequest (mkVerifyData sample_token "a@x.org") None) resent.2
  = (Ok (Valid "d0" "a@x.org" "supporter"), resent.2).
Proof. by vm_compute. Qed.




(** ** sendInvitations: one e-mail *)

Lemma users_snapshot_empty st email :
  empty_snapshot (limit1 (where_ (λ u, usr_email u = Some email) (users st))) = true
  ↔ ¬ has_account st email.
Proof.
  rewrite empty_snapshot_limit1, empty_snapshot_true, where_nil.
  unfold has_account. split.
  - intros Hnone (k & u & Hk & Hu). by apply (Hnone k u).
  - intros Hnone k u Hk Hu. apply Hnone. eauto.
Qed.

Lemma invitations_snapshot_empty st email :
  empty_snapshot (limit1 (where_ (pending_for email) (invitations st))) = true
  ↔ ¬ has_pending st email.
Proof.
  rewrite empty_snapshot_limit1, empty_snapshot_true, where_nil.
  unfold has_pending. split.
  - intros Hnone (k & d & Hk & Hd). by apply (Hnone k d).
  - intros Hnone k d Hk Hd. apply Hnone. eauto.
Qed.

Lemma processEmail_step env createdBy email r st :
  ∃ r' st', processEmail env createdBy email r st = (Ok r', st') ∧
            item_step env createdBy email r st r' st'.
Proof.
  unfold processEmail. run_fn.
  destruct (empty_snapshot (limit1 (where_ _ (users st)))) eqn:Husers; simpl.
  - apply users_snapshot_empty in Husers.
    destruct (empty_snapshot (limit1 (where_ _ (invitations st)))) eqn:Hinv; simpl.
    + apply invitations_snapshot_empty in Hinv.
      unfold transporter_sendMail.
      destruct (sendMail env) as [m|] eqn:Hmail; run_fn.
      * eexists _, _. split; [done|]. by apply item_dispatch_failed.
      * eexists _, _. split; [done|]. by apply item_sent.
    + eexists _, _. split; [done|]. apply item_already_sent; [done|].
      apply dec_stable. intros Hno. apply invitations_snapshot_empty in Hno. congruence.
  - eexists _, _. split; [done|]. apply item_user_exists.
    apply dec_stable. intros Hno. apply users_snapshot_empty in Hno. congruence.
Qed.

(** ** sendInvitations: the loop *)

Lemma forEmails_app env i createdBy l1 l2 r st :
  forEmails env i createdBy (l1 ++ l2) r st =
    match forEmails env i createdBy l1 r st with
    | (Ok r1, s1) => forEmails env (i + length l1) createdBy l2 r1 s1
    | (Throw e, s1) => (Throw e, s1)
    end.
Proof.
  revert i r st. induction l1 as [|email l1 IH]; intros i r st; simpl.
  - unfold ret. by rewrite Nat.add_0_r.
  - unfold bind.
    destruct (processEmail (env i) createdBy email r st) as [[r1|e] s1]; [|done].
    rewrite IH. by replace (i + S (length l1))%nat with (S i + length l1)%nat by lia.
Qed.

(** The loop always runs to its end: no turn throws. *)
Lemma forEmails_returns env i createdBy l r st :
  ∃ r' st', forEmails env i createdBy l r st = (Ok r', st').
Proof.
  revert i r st. induction l as [|email l IH]; intros i r st; simpl.
  - by eexists _, _.
  - unfold bind.
    destruct (processEmail_step (env i) createdBy email r st) as (r1 & s1 & -> & _).
    apply IH.
Qed.

Lemma loop_after_S env createdBy todo st i email :
  todo !! i = Some email →
  loop_after env createdBy todo st (S i) =
    match loop_after env createdBy todo st i with
    | (Ok r, s) => processEmail (env i) createdBy email r s
    | (Throw e, s) => (Throw e, s)
    end.
Proof.
  intros Hi. unfold loop_after.
  rewrite (take_S_r _ _ _ Hi), forEmails_app. simpl.
  destruct (forEmails env 0 createdBy (take i todo) no_results st) as [[r|e] s]; [|done].
  rewrite length_take_le by (apply lookup_lt_Some in Hi; lia).
  unfold bind.
  destruct (processEmail_step (env i) createdBy email r s) as (r1 & s1 & -> & _).
  done.
Qed.

(** Every turn files its address in one list. *)
Lemma item_step_lists env createdBy email r s r' s' :
  item_step env createdBy email r s r' s' →
  success r' ++ (f_email <$> failed r') ≡ₚ
  (success r ++ (f_email <$> failed r)) ++ [email].
Proof.
  destruct 1; simpl; rewrite ?fmap_app; simpl.
  - by rewrite (assoc_L (++)).
  - by rewrite (assoc_L (++)).
  - rewrite <- !(assoc_L (++)). apply Permutation_app_head, Permutation_app_comm.
  - by rewrite (assoc_L (++)).
Qed.

Lemma forEmails_lists env i createdBy l r st r' st' :
  forEmails env i createdBy l r st = (Ok r', st') →
  success r' ++ (f_email <$> failed r') ≡ₚ (success r ++ (f_email <$> failed r)) ++ l.
Proof.
  revert i r st. induction l as [|email l IH]; intros i r st; simpl.
  - intros [= <- <-]. by rewrite app_nil_r.
  - unfold bind.
    destruct (processEmail_step (env i) createdBy email r st) as (r1 & s1 & -> & Hstep).
    intros Hrest. rewrite (IH _ _ _ Hrest), (item_step_lists _ _ _ _ _ _ _ Hstep).
    by rewrite <- (assoc_L (++)).
Qed.

(** The lists only grow. *)
Lemma item_step_failed_grows env createdBy email r s r' s' :
  item_step env createdBy email r s r' s' → failed r ⊆ failed r'.
Proof. destruct 1; simpl; set_solver. Qed.

Lemma forEmails_failed_grows env i createdBy l r st r' st' :
  forEmails env i createdBy l r st = (Ok r', st') → failed r ⊆ failed r'.
Proof.
  revert i r st. induction l as [|email l IH]; intros i r st; simpl.
  - by intros [= <- <-].
  - unfold bind.
    destruct (processEmail_step (env i) createdBy email r st) as (r1 & s1 & -> & Hstep).
    intros Hrest. etrans; [by eapply item_step_failed_grows|by eapply IH].
Qed.

(** The loop never touches [users]; an invitation it leaves in the store was
    there before or was written by one of its turns. *)
Lemma item_step_store env createdBy email r s r' s' :
  item_step env createdBy email r s r' s' →
  s' = s ∨ s' = with_invitation env createdBy email s.
Proof. destruct 1; auto. Qed.

Lemma forEmails_store env i createdBy l r st r' st' :
  forEmails env i createdBy l r st = (Ok r', st') →
  users st' = users st ∧
  ∀ k d, invitations st' !! k = Some d →
    invitations st !! k = Some d ∨
    ∃ j email, l !! j = Some email ∧ k = autoId (env (i + j)%nat) ∧
               d = newInvitation (env (i + j)%nat) createdBy email.
Proof.
  revert i r st. induction l as [|email l IH]; intros i r st; simpl.
  - intros [= <- <-]. auto.
  - unfold bind.
    destruct (processEmail_step (env i) createdBy email r st) as (r1 & s1 & -> & Hstep).
    intros Hrest. destruct (IH _ _ _ Hrest) as [Husers Hdocs].
    apply item_step_store in Hstep.
    split.
    { rewrite Husers. by destruct Hstep as [-> | ->]. }
    intros k d Hk. destruct (Hdocs k d Hk) as [Hold | (j & e & Hj & -> & ->)].
    + destruct Hstep as [-> | ->]; [by left|]. simpl in Hold.
      apply lookup_insert_Some in Hold as [[<- <-] | [_ Hold]]; [|by left].
      right. exists 0%nat, email. by rewrite Nat.add_0_r.
    + right. exists (S j), e.
      by replace (i + S j)%nat with (S i + j)%nat by lia.
Qed.

(** A record stays where it is while no later turn draws its id again. *)
Lemma forEmails_keeps env i createdBy l r st r' st' k d :
  forEmails env i createdBy l r st = (Ok r', st') →
  invitations st !! k = Some d →
  (∀ j, (j < length l)%nat → autoId (env (i + j)%nat) ≠ k) →
  invitations st' !! k = Some d.
Proof.
  revert i r st. induction l as [|email l IH]; intros i r st; simpl.
  - by intros [= <- <-].
  - unfold bind.
    destruct (processEmail_step (env i) createdBy email r st) as (r1 & s1 & -> & Hstep).
    intros Hrest Hk Hids. apply (IH _ _ _ Hrest).
    + apply item_step_store in Hstep as [-> | ->]; [done|]. simpl.
      rewrite lookup_insert_ne; [done|].
      specialize (Hids 0%nat ltac:(lia)). by rewrite Nat.add_0_r in Hids.
    + intros j Hj. specialize (Hids (S j) ltac:(lia)).
      by replace (i + S j)%nat with (S i + j)%nat in Hids by lia.
Qed.

(** ** The administrator functions, refused and admitted callers *)

Ltac enter_admin_fn :=
  unfold sendInvitations, resendInvitation, deleteInvitation, getInvitations,
    requireAuth; simpl;
  repeat match goal with
         | H : auth _ = _ |- _ => rewrite H
         end;
  repeat match goal with
         | |- context [bind (ret ?a) _ _] => unfold bind at 1; unfold ret at 1
         | |- context [bind (throw ?e) _ _] => unfold bind at 1; unfold throw at 1
         end;
  try (unfold try_catch, bind at 1; rewrite requireAdmin_unfold).

Lemma sendInvitations_unfold env (request : CallableRequest SendData) a st :
  auth request = Some a → is_admin a st →
  sendInvitations env request st =
    if empty_snapshot (emails (data request)) then
      (Throw (Error ("Failed to send invitations: " +:+
                     "Invalid input: emails must be a non-empty array")), st)
    else forEmails env 0 (createdBy_of request a) (emails (data request)) no_results st.
Proof.
  intros Hauth Hadmin. enter_admin_fn. rewrite decide_True by done.
  destruct (empty_snapshot (emails (data request))); [done|].
  fold (createdBy_of request a). fold no_results.
  by destruct (forEmails_returns env 0 (createdBy_of request a)
                 (emails (data request)) no_results st) as (r & s & ->).
Qed.

Lemma sendInvitations_unauthenticated env (request : CallableRequest SendData) st :
  auth request = None →
  sendInvitations env request st =
    (Throw (Error "Unauthorized: You must be logged in to send invitations"), st).
Proof. intros Hauth. by enter_admin_fn. Qed.

Lemma sendInvitations_not_admin env (request : CallableRequest SendData) a st :
  auth request = Some a → ¬ is_admin a st →
  sendInvitations env request st =
    (Throw (Error ("Failed to send invitations: " +:+
                   "Unauthorized: Only admins can send invitations")), st).
Proof. intros Hauth Hno. enter_admin_fn. by rewrite decide_False. Qed.

Lemma resendInvitation_unauthenticated env (request : CallableRequest string) st :
  auth request = None →
  resendInvitation env request st =
    (Throw (Error "Unauthorized: You must be logged in to resend invitations"), st).
Proof. intros Hauth. by enter_admin_fn. Qed.

Lemma resendInvitation_not_admin env (request : CallableRequest string) a st :
  auth request = Some a → ¬ is_admin a st →
  resendInvitation env request st =
    (Throw (Error ("Failed to resend invitation: " +:+
                   "Unauthorized: Only admins can resend invitations")), st).
Proof. intros Hauth Hno. enter_admin_fn. by rewrite decide_False. Qed.

Lemma deleteInvitation_unfold (request : CallableRequest string) a st :
  auth request = Some a → is_admin a st →
  deleteInvitation request st =
    (Ok success_true,
     {| users := users st; invitations := delete (data request) (invitations st) |}).
Proof. intros Hauth Hadmin. enter_admin_fn. by rewrite decide_True. Qed.

Lemma deleteInvitation_unauthenticated (request : CallableRequest string) st :
  auth request = None →
  deleteInvitation request st =
    (Throw (Error "Unauthorized: You must be logged in to delete invitations"), st).
Proof. intros Hauth. by enter_admin_fn. Qed.

Lemma deleteInvitation_not_admin (request : CallableRequest string) a st :
  auth request = Some a → ¬ is_admin a st →
  deleteInvitation request st =
    (Throw (Error ("Failed to delete invitation: " +:+
                   "Unauthorized: Only admins can delete invitations")), st).
Proof. intros Hauth Hno. enter_admin_fn. by rewrite decide_False. Qed.

Lemma getInvitations_unfold (request : CallableRequest unit) a st :
  auth request = Some a → is_admin a st →
  getInvitations request st =
    (Ok (merge_sort newer_first (map_to_list (invitations st)).*2), st).
Proof. intros Hauth Hadmin. enter_admin_fn. by rewrite decide_True. Qed.

Lemma getInvitations_unauthenticated (request : CallableRequest unit) st :
  auth request = None →
  getInvitations request st =
    (Throw (Error "Unauthorized: You must be logged in to view invitations"), st).
Proof. intros Hauth. by enter_admin_fn. Qed.

Lemma getInvitations_not_admin (request : CallableRequest unit) a st :
  auth request = Some a → ¬ is_admin a st →
  getInvitations request st =
    (Throw (Error ("Failed to get invitations: " +:+
                   "Unauthorized: Only admins can view invitations")), st).
Proof. intros Hauth Hno. enter_admin_fn. by rewrite decide_False. Qed.

(** ** sendInvitations: the batch *)

(** C5: for an administrator and a non-empty list, [sendInvitations]
    returns its two lists, whatever happens to single addresses. Turn [i] of
    the loop handles [emails[i]] on the store and lists the turns before left:
    an address with an account, or else with a pending invitation, goes to
    [failed] with its reason and the store stays as it is; any other address
    gets a new pending record, and goes to [success] when the mail went out
    and to [failed] when it did not. Each entry of the input lands in one of
    the two lists, once. *)
Theorem sendInvitations_each_email env (request : CallableRequest SendData) a st :
  auth request = Some a → is_admin a st → emails (data request) ≠ [] →
  let todo := emails (data request) in
  let createdBy := createdBy_of request a in
  ∃ results st',
    sendInvitations env request st = (Ok results, st') ∧
    loop_after env createdBy todo st (length todo) = (Ok results, st') ∧
    success results ++ (f_email <$> failed results) ≡ₚ todo ∧
    ∀ i email, todo !! i = Some email →
      ∃ r s r' s',
        loop_after env createdBy todo st i = (Ok r, s) ∧
        loop_after env createdBy todo st (S i) = (Ok r', s') ∧
        item_step (env i) createdBy email r s r' s'.
Proof.
  intros Hauth Hadmin Hnonempty todo createdBy.
  rewrite (sendInvitations_unfold _ _ a) by done. fold todo createdBy.
  destruct todo as [|e0 rest] eqn:Htodo; [done|]. rewrite <- Htodo in *. simpl.
  replace (empty_snapshot todo) with false by (by rewrite Htodo).
  destruct (forEmails_returns env 0 createdBy todo no_results st)
    as (results & st' & Hrun).
  exists results, st'. split; [done|]. split; [|split].
  - unfold loop_after. by rewrite firstn_all.
  - apply forEmails_lists in Hrun. by rewrite Hrun.
  - intros i email Hi. rewrite (loop_after_S _ _ _ _ _ _ Hi).
    destruct (forEmails_returns env 0 createdBy (take i todo) no_results st)
      as (r & s & Hbefore).
    unfold loop_after at 1 2. rewrite Hbefore.
    destruct (processEmail_step (env i) createdBy email r s) as (r' & s' & Hturn & Hstep).
    by exists r, s, r', s'.
Qed.

Lemma sendInvitations_each_email_witness :
  ∃ results st',
    sendInvitations sample_envs sample_batch empty_store = (Ok results, st') ∧
    results = {| success := ["a@x.org"];
                 failed := [mkFailed "b@x.org" "SMTP down";
                            mkFailed "a@x.org" "Invitation already sent"] |} ∧
    success results ++ (f_email <$> failed results) ≡ₚ ["a@x.org"; "b@x.org"; "a@x.org"].
Proof.
  destruct (sendInvitations_each_email sample_envs sample_batch coach empty_store
              eq_refl) as (results & st' & Hrun & _ & Hperm & _).
  - by left.
  - discriminate.
  - exists results, st'. split; [exact Hrun|]. split; [|exact Hperm].
    vm_compute in Hrun. by injection Hrun as <- _.
Defined.

(** The turn of an address that has no account and no pending invitation,
    when the mail does not go out; and the turn of an address that has no
    account but a pending invitation. *)
Lemma processEmail_dispatch_failed env createdBy email r s m :
  ¬ has_account s email → ¬ has_pending s email → sendMail env = Some m →
  processEmail env createdBy email r s =
    (Ok (push_failed r email (reason_of m)), with_invitation env createdBy email s).
Proof.
  intros Hno_account Hno_pending Hmail.
  destruct (processEmail_step env createdBy email r s) as (r' & s' & -> & Hstep).
  destruct Hstep; try done; try congruence.
Qed.

Lemma processEmail_already_sent env createdBy email r s :
  ¬ has_account s email → has_pending s email →
  processEmail env createdBy email r s =
    (Ok (push_failed r email "Invitation already sent"), s).
Proof.
  intros Hno_account Hpending.
  destruct (processEmail_step env createdBy email r s) as (r' & s' & -> & Hstep).
  destruct Hstep; done.
Qed.

Lemma processEmail_sent env createdBy email r s :
  ¬ has_account s email → ¬ has_pending s email → sendMail env = None →
  processEmail env createdBy email r s =
    (Ok (push_success r email), with_invitation env createdBy email s).
Proof.
  intros Hno_account Hno_pending Hmail.
  destruct (processEmail_step env createdBy email r s) as (r' & s' & -> & Hstep).
  destruct Hstep; try done; congruence.
Qed.

(** C8: when the mail for an address does not go out, the address is in the
    [failed] list that [sendInvitations] returns, with the message of the
    error as its reason; the record written just before is in the store when
    the turn ends, and still there when the function returns, provided no
    later turn of the batch draws the same document id. *)
Theorem dispatch_failure_reported_record_kept
    env (request : CallableRequest SendData) a st i email m r s :
  auth request = Some a → is_admin a st →
  let todo := emails (data request) in
  let createdBy := createdBy_of request a in
  todo !! i = Some email →
  loop_after env createdBy todo st i = (Ok r, s) →
  ¬ has_account s email → ¬ has_pending s email →
  sendMail (env i) = Some m →
  ∃ results st',
    sendInvitations env request st = (Ok results, st') ∧
    mkFailed email (reason_of m) ∈ failed results ∧
    (∃ r1 s1, loop_after env createdBy todo st (S i) = (Ok r1, s1) ∧
       success r1 = success r ∧
       invitations s1 !! autoId (env i) = Some (newInvitation (env i) createdBy email)) ∧
    ((∀ j, (i < j < length todo)%nat → autoId (env j) ≠ autoId (env i)) →
     invitations st' !! autoId (env i) = Some (newInvitation (env i) createdBy email)).
Proof.
  intros Hauth Hadmin todo createdBy Hi Hbefore Hno_account Hno_pending Hmail.
  rewrite (sendInvitations_unfold _ _ a) by done. fold todo createdBy.
  replace (empty_snapshot todo) with false
    by (destruct todo; [by rewrite lookup_nil in Hi|done]).
  pose proof (lookup_lt_Some _ _ _ Hi) as Hlt.
  assert (forEmails env 0 createdBy todo no_results st =
          forEmails env 0 createdBy (take i todo ++ email :: drop (S i) todo)
            no_results st) as -> by (by rewrite take_drop_middle).
  rewrite forEmails_app. fold (loop_after env createdBy todo st i).
  rewrite Hbefore, length_take_le by lia. simpl. unfold bind.
  rewrite (processEmail_dispatch_failed _ _ _ _ _ m) by done.
  destruct (forEmails_returns env (S i) createdBy (drop (S i) todo)
              (push_failed r email (reason_of m))
              (with_invitation (env i) createdBy email s))
    as (results & st' & Hrest).
  exists results, st'. rewrite Hrest. split; [done|]. split; [|split].
  - apply (forEmails_failed_grows _ _ _ _ _ _ _ _ Hrest). simpl. set_solver.
  - exists (push_failed r email (reason_of m)), (with_invitation (env i) createdBy email s).
    rewrite (loop_after_S _ _ _ _ _ _ Hi), Hbefore.
    rewrite (processEmail_dispatch_failed _ _ _ _ _ m) by done.
    split; [done|]. split; [done|]. simpl. apply lookup_insert_eq.
  - intros Hids. apply (forEmails_keeps _ _ _ _ _ _ _ _ _ _ Hrest).
    + simpl. apply lookup_insert_eq.
    + intros j Hj. rewrite length_drop in Hj. apply Hids. lia.
Qed.

Lemma dispatch_failure_reported_record_kept_witness :
  ∃ results st',
    sendInvitations sample_envs sample_batch empty_store = (Ok results, st') ∧
    mkFailed "b@x.org" "SMTP down" ∈ failed results ∧
    invitations st' !! "d1" = Some (newInvitation (sample_envs 1) "coach@x.org" "b@x.org").
Proof.
  destruct (dispatch_failure_reported_record_kept sample_envs sample_batch coach
              empty_store 1 "b@x.org" "SMTP down"
              (push_success no_results "a@x.org")
              (with_invitation (sample_envs 0) "coach@x.org" "a@x.org" empty_store)
              eq_refl (or_introl eq_refl) eq_refl eq_refl)
    as (results & st' & Hrun & Hfailed & _ & Hkept).
  - apply (bool_decide_unpack _). by vm_compute.
  - apply (bool_decide_unpack _). by vm_compute.
  - reflexivity.
  - exists results, st'. split; [exact Hrun|]. split; [exact Hfailed|].
    apply Hkept. intros j Hj. simpl in Hj.
    assert (j = 2%nat) as -> by lia. discriminate.
Defined.

Lemma processEmail_user_exists env createdBy email r s :
  has_account s email →
  processEmail env createdBy email r s =
    (Ok (push_failed r email "User already exists"), s).
Proof.
  intros Haccount.
  destruct (processEmail_step env createdBy email r s) as (r' & s' & -> & Hstep).
  destruct Hstep; done.
Qed.

(** C10, counterexample: the address has an account, and its only
    invitation is pending and long expired; inviting it again fails with the
    reason 'User already exists', because the account is looked up first. *)
Lemma reinvite_with_account_reports_user_exists :
  ¬ reinvite_reason_is_already_sent long_after coach registered_store "a@x.org".
Proof.
  intros Hclaim. unfold reinvite_reason_is_already_sent in Hclaim.
  assert ((sendInvitations long_after
             (mkRequest (mkSendData ["a@x.org"] None) (Some coach)) registered_store).1 =
          Ok {| success := []; failed := [mkFailed "a@x.org" "User already exists"] |})
    as Hrun by reflexivity.
  rewrite Hclaim in Hrun; [discriminate|by left|].
  exists "d0", lapsed_invitation. repeat split.
  - left. reflexivity.
  - intros k' d Hk' _. simpl in Hk'. by apply lookup_singleton_Some in Hk' as [<- _].
Qed.

(** C10, amended: the check for a pending invitation looks at [email] and
    [status] only, never at [expiresAt]. So when the address has a pending
    invitation, expired or not, inviting it again fails and leaves the store
    as it is, at this and at every later attempt: with the reason
    'Invitation already sent' when the address has no account, and with
    'User already exists' when it has one. Once that record, the only pending
    one for the address, is deleted, the same request writes a new
    invitation for an address without an account. *)
Theorem pending_invitation_blocks_reinvite env a st (email : string) invitedBy k inv :
  is_admin a st →
  invitations st !! k = Some inv → inv_email inv = email → inv_status inv = "pending" →
  let request := mkRequest (mkSendData [email] invitedBy) (Some a) in
  (¬ has_account st email →
   sendInvitations env request st =
     (Ok {| success := []; failed := [mkFailed email "Invitation already sent"] |}, st) ∧
   ∀ env1 createdBy r,
     processEmail env1 createdBy email r st =
       (Ok (push_failed r email "Invitation already sent"), st)) ∧
  (has_account st email →
   sendInvitations env request st =
     (Ok {| success := []; failed := [mkFailed email "User already exists"] |}, st)) ∧
  (¬ has_account st email →
   (∀ k' d, invitations st !! k' = Some d → pending_for email d → k' = k) →
   sendMail (env 0%nat) = None →
   let st_del := (deleteInvitation (mkRequest k (Some a)) st).2 in
   sendInvitations env request st_del =
     (Ok {| success := [email]; failed := [] |},
      with_invitation (env 0%nat) (createdBy_of request a) email st_del)).
Proof.
  intros Hadmin Hk Hemail Hstatus request.
  assert (has_pending st email) as Hpending by (exists k, inv; by repeat split).
  split; [|split].
  - intros Hno_account. split.
    + rewrite (sendInvitations_unfold _ _ a) by done. simpl. unfold bind.
      by rewrite processEmail_already_sent.
    + intros env1 createdBy r. by apply processEmail_already_sent.
  - intros Haccount.
    rewrite (sendInvitations_unfold _ _ a) by done. simpl. unfold bind.
    by rewrite processEmail_user_exists.
  - intros Hno_account Honly Hmail st_del. subst st_del.
    rewrite (deleteInvitation_unfold _ a) by done. simpl.
    rewrite (sendInvitations_unfold _ _ a) by done. simpl. unfold bind.
    rewrite processEmail_sent; [done|done| |done].
    intros (k' & d & Hk' & Hd). simpl in Hk'.
    apply lookup_delete_Some in Hk' as [Hne Hk']. by apply Hne, eq_sym, (Honly k' d).
Qed.

Lemma pending_invitation_blocks_reinvite_witness :
  ts_lt (inv_expiresAt lapsed_invitation) (Timestamp_now (long_after 0%nat)) ∧
  sendInvitations long_after
    (mkRequest (mkSendData ["a@x.org"] None) (Some coach)) lapsed_store =
  (Ok {| success := []; failed := [mkFailed "a@x.org" "Invitation already sent"] |},
   lapsed_store).
Proof.
  split; [left; reflexivity|].
  destruct (pending_invitation_blocks_reinvite long_after coach lapsed_store "a@x.org"
              None "d0" lapsed_invitation) as [Hblocked _].
  - by left.
  - reflexivity.
  - reflexivity.
  - reflexivity.
  - apply Hblocked. apply (bool_decide_unpack _). by vm_compute.
Defined.

(** ** What each function leaves in the store *)

Lemma sendInvitations_store env (request : CallableRequest SendData) st :
  users (sendInvitations env request st).2 = users st ∧
  ∀ k d, invitations (sendInvitations env request st).2 !! k = Some d →
    invitations st !! k = Some d ∨
    ∃ j createdBy email, emails (data request) !! j = Some email ∧
                         k = autoId (env j) ∧ d = newInvitation (env j) createdBy email.
Proof.
  destruct (auth request) as [a|] eqn:Hauth.
  - destruct (decide (is_admin a st)) as [Hadmin|Hno].
    + rewrite (sendInvitations_unfold _ _ a) by done.
      destruct (empty_snapshot (emails (data request))); [simpl; auto|].
      destruct (forEmails_returns env 0 (createdBy_of request a)
                  (emails (data request)) no_results st) as (r & s & Hrun).
      rewrite Hrun. simpl. apply forEmails_store in Hrun as [Husers Hdocs].
      split; [done|]. intros k d Hk.
      destruct (Hdocs k d Hk) as [?|(j & email & ? & ? & ?)]; [by left|].
      right. by exists j, (createdBy_of request a), email.
    + rewrite (sendInvitations_not_admin _ _ a) by done. simpl. auto.
  - rewrite sendInvitations_unauthenticated by done. simpl. auto.
Qed.

Lemma resendInvitation_store env (request : CallableRequest string) st :
  (resendInvitation env request st).2 = st ∨
  ∃ inv, invitations st !! data request = Some inv ∧ inv_status inv = "pending" ∧
    (resendInvitation env request st).2 =
      {| users := users st;
         invitations := <[data request := reissued env inv]> (invitations st) |}.
Proof.
  destruct request as [invitationId [a|]]; cbn [data].
  - destruct (decide (is_admin a st)) as [Hadmin|Hno].
    + rewrite resendInvitation_unfold by done.
      destruct (invitations st !! invitationId) as [inv|] eqn:Hdoc; [|by left].
      case_bool_decide; [|by left]. right. by exists inv.
    + rewrite (resendInvitation_not_admin _ _ a) by done. by left.
  - rewrite resendInvitation_unauthenticated by done. by left.
Qed.

Lemma deleteInvitation_store (request : CallableRequest string) st :
  (deleteInvitation request st).2 = st ∨
  (deleteInvitation request st).2 =
    {| users := users st; invitations := delete (data request) (invitations st) |}.
Proof.
  destruct (auth request) as [a|] eqn:Hauth.
  - destruct (decide (is_admin a st)) as [Hadmin|Hno].
    + rewrite (deleteInvitation_unfold _ a) by done. by right.
    + rewrite (deleteInvitation_not_admin _ a) by done. by left.
  - rewrite deleteInvitation_unauthenticated by done. by left.
Qed.

Lemma getInvitations_store (request : CallableRequest unit) st :
  (getInvitations request st).2 = st.
Proof.
  destruct (auth request) as [a|] eqn:Hauth.
  - destruct (decide (is_admin a st)) as [Hadmin|Hno].
    + by rewrite (getInvitations_unfold _ a).
    + by rewrite (getInvitations_not_admin _ a).
  - by rewrite getInvitations_unauthenticated.
Qed.

Lemma acceptInvitation_store env (request : CallableRequest AcceptData) st :
  (acceptInvitation env request st).2 = st ∨
  ∃ inv, invitations st !! a_invitationId (data request) = Some inv ∧
    (acceptInvitation env request st).2 =
      {| users := users st;
         invitations := <[a_invitationId (data request) :=
                            accepted_by env (a_userId (data request)) inv]>
                          (invitations st) |}.
Proof.
  destruct (decide (a_invitationId (data request) = "")) as [Hi|Hi].
  { rewrite acceptInvitation_requires_inputs; auto. }
  destruct (decide (a_userId (data request) = "")) as [Hu|Hu].
  { rewrite acceptInvitation_requires_inputs; auto. }
  rewrite acceptInvitation_unfold by done.
  destruct (invitations st !! _) as [inv|] eqn:Hdoc; [|by left].
  repeat case_bool_decide; try by left. right. by exists inv.
Qed.

(** ** Histories of calls *)

Lemma step_no_role (c : Call) st : no_role st → no_role (step c st).
Proof.
  intros Hst k d. destruct c as [env rq|env rq|rq|rq|env rq|env rq]; simpl.
  - intros Hk. apply sendInvitations_store in Hk as [Hold|(j & cb & e & _ & _ & ->)];
      [by apply (Hst k)|done].
  - destruct (resendInvitation_store env rq st) as [-> | (inv & Hdoc & _ & ->)];
      [apply Hst|]. simpl. intros Hk.
    apply lookup_insert_Some in Hk as [[_ <-] | [_ Hk]]; [|by apply (Hst k)].
    simpl. by apply (Hst (data rq)).
  - destruct (deleteInvitation_store rq st) as [-> | ->]; [apply Hst|]. simpl.
    intros Hk. apply lookup_delete_Some in Hk as [_ Hk]. by apply (Hst k).
  - rewrite getInvitations_store. apply Hst.
  - rewrite verifyInvitation_store. apply Hst.
  - destruct (acceptInvitation_store env rq st) as [-> | (inv & Hdoc & ->)];
      [apply Hst|]. simpl. intros Hk.
    apply lookup_insert_Some in Hk as [[_ <-] | [_ Hk]]; [|by apply (Hst k)].
    simpl. by apply (Hst (a_invitationId (data rq))).
Qed.

Lemma run_no_role (calls : list Call) st : no_role st → no_role (run calls st).
Proof.
  revert st. induction calls as [|c calls IH]; intros st Hst; [done|].
  simpl. by apply IH, step_no_role.
Qed.

(** C4: a record that [sendInvitations] writes has the seven fields of the
    [set] call and no [role] (nor any of the fields later calls add); every
    other record of the store it leaves was there before, unchanged. Hence
    on a store that a history of calls of the six functions builds from an
    empty [invitations] collection, every success of [verifyInvitation]
    returns the role 'supporter'. *)
Theorem verified_role_is_supporter :
  (∀ env (request : CallableRequest SendData) st k d,
     invitations (sendInvitations env request st).2 !! k = Some d →
     invitations st !! k = Some d ∨
     (inv_role d = None ∧ inv_updatedAt d = None ∧
      inv_acceptedAt d = None ∧ inv_acceptedBy d = None ∧
      inv_status d = "pending" ∧
      ∃ j createdBy email, d = newInvitation (env j) createdBy email)) ∧
  (∀ calls st0 env (request : CallableRequest VerifyData) id email role,
     invitations st0 = ∅ →
     (verifyInvitation env request (run calls st0)).1 = Ok (Valid id email role) →
     role = "supporter").
Proof.
  split.
  - intros env request st k d Hk.
    apply sendInvitations_store in Hk as [Hold|(j & cb & e & _ & _ & ->)]; [by left|].
    right. repeat split; try done. by exists j, cb, e.
  - intros calls st0 env request id email role Hempty Hverify.
    assert (no_role (run calls st0)) as Hnone.
    { apply run_no_role. intros k d. rewrite Hempty, lookup_empty. done. }
    destruct (decide (v_token (data request) = "")) as [Ht|Ht].
    { rewrite verifyInvitation_requires_inputs in Hverify; auto. discriminate. }
    destruct (decide (v_email (data request) = "")) as [He|He].
    { rewrite verifyInvitation_requires_inputs in Hverify; auto. discriminate. }
    rewrite verifyInvitation_unfold in Hverify by done. simpl in Hverify.
    destruct (head _) as [inv|] eqn:Hhead; [|discriminate].
    case_bool_decide; [discriminate|]. injection Hverify as <- <- <-.
    apply where_head in Hhead as [_ [k Hk]]. by rewrite (Hnone k inv Hk).
Qed.

Lemma verified_role_is_supporter_witness :
  ∃ id email role,
    (verifyInvitation half_second_late
       (mkRequest (mkVerifyData sample_token "a@x.org") None)
       (run sample_history empty_store)).1 = Ok (Valid id email role) ∧
    role = "supporter".
Proof.
  assert (∃ id email role,
    (verifyInvitation half_second_late
       (mkRequest (mkVerifyData sample_token "a@x.org") None)
       (run sample_history empty_store)).1 = Ok (Valid id email role))
    as (id & email & role & Hverify)
    by (exists "d0", "a@x.org", "supporter"; vm_compute; reflexivity).
  exists id, email, role. split; [exact Hverify|].
  exact (proj2 verified_role_is_supporter _ empty_store _ _ _ _ _ eq_refl Hverify).
Defined.

(** ** Expiry dates *)

Lemma ts_lt_plus_seconds (a b : Timestamp) (s : Z) :
  ts_lt a b → ts_lt (ts_plus_seconds a s) (ts_plus_seconds b s).
Proof. unfold ts_lt, ts_plus_seconds. simpl. lia. Qed.

(** C6, counterexample: [createdAt] is the commit time of the write,
    [expiresAt] is computed from [Date.now()] before the write. With the
    clock at 1000 ms and the commit 5 ms later, the record has
    [createdAt] = (1 s, 5000000 ns) and [expiresAt] = (604801 s, 0 ns). *)
Lemma expiry_counts_from_the_function_clock :
  ¬ expiry_is_createdAt_plus_seven_days sample_envs sample_batch empty_store.
Proof.
  intros Hclaim.
  specialize (Hclaim "d0" (newInvitation (sample_envs 0) "coach@x.org" "a@x.org")
                eq_refl eq_refl).
  vm_compute in Hclaim. discriminate.
Qed.

(** C6, amended: a record that [sendInvitations] writes has [expiresAt] =
    the reading of [Date.now()] in its turn of the loop plus seven days, and
    [createdAt] = the commit time of the write, so [expiresAt] is
    [createdAt] plus seven days when these two readings agree. After a
    resend that succeeds, [expiresAt] = the reading of [Date.now()] in the
    resend plus seven days, and that is later than the [expiresAt] it
    replaces when the replaced one was counted from an earlier reading. *)
Theorem expiry_is_seven_days_after_clock_reading :
  (∀ env (request : CallableRequest SendData) st k d,
     invitations (sendInvitations env request st).2 !! k = Some d →
     invitations st !! k ≠ Some d →
     ∃ j, inv_createdAt d = serverTimestamp (env j) ∧
       inv_expiresAt d = ts_plus_seconds (Timestamp_now (env j)) sevenDaysSeconds ∧
       (serverTimestamp (env j) = Timestamp_now (env j) →
        inv_expiresAt d = ts_plus_seconds (inv_createdAt d) sevenDaysSeconds)) ∧
  (∀ env (request : CallableRequest string) st st' ok,
     resendInvitation env request st = (Ok ok, st') →
     ∃ inv inv', invitations st !! data request = Some inv ∧
       invitations st' !! data request = Some inv' ∧
       inv_expiresAt inv' = ts_plus_seconds (Timestamp_now env) sevenDaysSeconds ∧
       ∀ env0, inv_expiresAt inv = ts_plus_seconds (Timestamp_now env0) sevenDaysSeconds →
               Date_now env0 < Date_now env →
               ts_lt (inv_expiresAt inv) (inv_expiresAt inv')).
Proof.
  split.
  - intros env request st k d Hk Hnew.
    apply sendInvitations_store in Hk as [Hold|(j & cb & e & _ & _ & ->)]; [done|].
    exists j. simpl. unfold Timestamp_now. rewrite fromDate_plus_sevenDays.
    split; [done|]. split; [done|]. by intros ->.
  - intros env request st st' ok Hrun.
    apply resendInvitation_success in Hrun
      as (a & inv & _ & _ & Hdoc & _ & _ & ->). simpl.
    exists inv, (reissued env inv). rewrite lookup_insert_eq. simpl.
    unfold Timestamp_now. rewrite fromDate_plus_sevenDays.
    repeat split; try done.
    intros env0 -> Hlater. by apply ts_lt_plus_seconds, fromDate_lt.
Qed.

Lemma expiry_is_seven_days_after_clock_reading_witness :
  let st := (sendInvitations sample_envs sample_batch empty_store).2 in
  let st' := (resendInvitation minute_later (mkRequest "d0" (Some coach)) st).2 in
  ∃ inv inv', invitations st !! "d0" = Some inv ∧ invitations st' !! "d0" = Some inv' ∧
    inv_expiresAt inv = {| seconds := 604801; nanoseconds := 0 |} ∧
    inv_expiresAt inv' = {| seconds := 604861; nanoseconds := 0 |} ∧
    ts_lt (inv_expiresAt inv) (inv_expiresAt inv').
Proof.
  destruct (proj2 expiry_is_seven_days_after_clock_reading minute_later
              (mkRequest "d0" (Some coach))
              (sendInvitations sample_envs sample_batch empty_store).2
              (resendInvitation minute_later (mkRequest "d0" (Some coach))
                 (sendInvitations sample_envs sample_batch empty_store).2).2
              success_true eq_refl)
    as (inv & inv' & Hdoc & Hdoc' & Hexp & Hlater).
  exists inv, inv'.
  assert (inv = newInvitation (sample_envs 0) "coach@x.org" "a@x.org") as Hinv.
  { vm_compute in Hdoc. injection Hdoc as <-. reflexivity. }
  split; [exact Hdoc|]. split; [exact Hdoc'|]. split; [by rewrite Hinv|].
  split; [by rewrite Hexp|].
  apply (Hlater (sample_envs 0)); [by rewrite Hinv|reflexivity].
Defined.

(** ** Errors of the administrator functions *)




(** ** An accepted invitation stays accepted *)

Lemma step_spent (c : Call) (k : string) st :
  ¬ draws c k → spent k st → spent k (step c st).
Proof.
  unfold spent. intros Hfresh Hspent.
  destruct c as [env rq|env rq|rq|rq|env rq|env rq]; simpl.
  - destruct (invitations (sendInvitations env rq st).2 !! k) as [d|] eqn:Hk; [|done].
    apply sendInvitations_store in Hk as [Hold|(j & cb & e & Hj & -> & _)].
    + by rewrite Hold in Hspent.
    + destruct Hfresh. simpl. eauto.
  - destruct (resendInvitation_store env rq st)
      as [-> | (inv & Hdoc & Hpending & ->)]; [done|]. simpl.
    destruct (decide (data rq = k)) as [<-|Hne].
    + by rewrite Hdoc in Hspent.
    + by rewrite lookup_insert_ne.
  - destruct (deleteInvitation_store rq st) as [-> | ->]; [done|]. simpl.
    destruct (decide (data rq = k)) as [<-|Hne].
    + by rewrite lookup_delete_eq.
    + by rewrite lookup_delete_ne.
  - by rewrite getInvitations_store.
  - by rewrite verifyInvitation_store.
  - destruct (acceptInvitation_store env rq st) as [-> | (inv & Hdoc & ->)]; [done|].
    simpl. destruct (decide (a_invitationId (data rq) = k)) as [<-|Hne].
    + by rewrite lookup_insert_eq.
    + by rewrite lookup_insert_ne.
Qed.

Lemma run_spent (calls : list Call) (k : string) st :
  Forall (λ c, ¬ draws c k) calls → spent k st → spent k (run calls st).
Proof.
  revert st. induction calls as [|c calls IH]; intros st Hfresh Hspent; [done|].
  apply Forall_cons in Hfresh as [Hc Hrest]. simpl. by apply IH, step_spent.
Qed.

(** After a success of [acceptInvitation], and whatever calls follow, no
    call on the same id succeeds again, as long as the id is not drawn anew
    for another invitation. *)
Lemma acceptInvitation_never_again env (request : CallableRequest AcceptData) st st' ok
    (calls : list Call) env' (request' : CallableRequest AcceptData) :
  acceptInvitation env request st = (Ok ok, st') →
  a_invitationId (data request') = a_invitationId (data request) →
  Forall (λ c, ¬ draws c (a_invitationId (data request))) calls →
  ∃ e, acceptInvitation env' request' (run calls st') = (Throw e, run calls st').
Proof.
  intros Hrun Hsame Hfresh.
  apply acceptInvitation_success in Hrun as (_ & _ & inv & _ & _ & _ & ->).
  assert (spent (a_invitationId (data request'))
            (run calls
               {| users := users st;
                  invitations := <[a_invitationId (data request) :=
                                     accepted_by env (a_userId (data request)) inv]>
                                   (invitations st) |})) as Hspent.
  { rewrite Hsame. apply run_spent; [done|]. unfold spent. simpl.
    by rewrite lookup_insert_eq. }
  destruct (decide (a_invitationId (data request') = "")) as [Hi|Hi].
  { rewrite acceptInvitation_requires_inputs by auto. eauto. }
  destruct (decide (a_userId (data request') = "")) as [Hu|Hu].
  { rewrite acceptInvitation_requires_inputs by auto. eauto. }
  rewrite acceptInvitation_unfold by done. unfold spent in Hspent.
  destruct (invitations _ !! a_invitationId (data request')) as [d|]; [|eauto].
  rewrite bool_decide_eq_false_2 by done. eauto.
Qed.

(** * Further properties of the functions *)

(** ** The token generator *)

(** X1: a token is 64 characters long, each a lower-case hexadecimal digit,
    and two tokens are equal only when the 32 bytes they were made from are
    the same. *)
Theorem generateToken_is_64_hex_digits env :
  String.length (generateToken env) = 64%nat ∧
  Forall (λ c, is_hex_digit c = true) (String.list_ascii_of_string (generateToken env)) ∧
  ∀ env', generateToken env' = generateToken env →
          ∀ i, (i < 32)%nat → entropy env' i = entropy env i.
Proof.
  split; [reflexivity|]. split; [apply toString_hex_digits|].
  intros env' Heq i Hi. unfold generateToken, randomBytes in Heq.
  apply toString_hex_inj in Heq.
  assert (seq 0 32 !! i = Some i) as Hseq by (apply lookup_seq; lia).
  apply (f_equal (λ l, l !! i)) in Heq.
  by rewrite !list_lookup_fmap, Hseq in Heq; simplify_eq/=.
Qed.

Lemma generateToken_is_64_hex_digits_witness :
  entropy minute_later 7 = entropy half_second_late 7.
Proof.
  destruct (generateToken_is_64_hex_digits half_second_late) as (_ & _ & Hsame).
  apply (Hsame minute_later); [reflexivity|lia].
Defined.

(** ** deleteInvitation *)

(** X2: for an administrator and a document id [deleteInvitation] returns
    success, also when nothing is stored under the id; afterwards the id is
    free, every other invitation and every user document is as before, and
    deleting the same id again changes nothing. *)
Theorem deleteInvitation_removes_one (invitationId : string) a st :
  is_admin a st →
  document_id invitationId →
  let request := mkRequest invitationId (Some a) in
  ∃ st', deleteInvitation request st = (Ok success_true, st') ∧
    invitations st' !! invitationId = None ∧
    (∀ k, k ≠ invitationId → invitations st' !! k = invitations st !! k) ∧
    users st' = users st ∧
    (invitations st !! invitationId = None → st' = st) ∧
    deleteInvitation request st' = (Ok success_true, st').
Proof.
  intros Hadmin _ request. subst request.
  rewrite (deleteInvitation_unfold _ a) by done. simpl.
  eexists. split; [done|]. simpl.
  split; [apply lookup_delete_eq|]. split; [intros k Hk; by apply lookup_delete_ne|].
  split; [done|]. split.
  - intros Hmissing. destruct st as [us invs]. simpl in *. f_equal.
    by apply delete_id.
  - rewrite (deleteInvitation_unfold _ a) by done. simpl.
    by rewrite delete_delete_eq.
Qed.

Lemma deleteInvitation_removes_one_witness :
  deleteInvitation (mkRequest "d5" (Some coach)) open_store = (Ok success_true, open_store).
Proof.
  assert (document_id "d5") as Hid by (apply (bool_decide_unpack _); by vm_compute).
  destruct (deleteInvitation_removes_one "d5" coach open_store (or_introl eq_refl) Hid)
    as (st' & Hrun & _ & _ & _ & Hmissing & _).
  rewrite Hrun. f_equal. by apply Hmissing.
Defined.

(** X3: once an administrator has deleted an invitation, accepting it and
    resending it both fail with 'Invitation not found', and its token no
    longer verifies, provided no other record carries the same token. *)
Theorem deleted_invitation_is_gone (invitationId : string) a st inv :
  is_admin a st →
  invitations st !! invitationId = Some inv →
  (∀ k d, invitations st !! k = Some d → inv_token d = inv_token inv →
          k = invitationId) →
  let st' := (deleteInvitation (mkRequest invitationId (Some a)) st).2 in
  (∀ env userId a', invitationId ≠ "" → userId ≠ "" →
     acceptInvitation env (mkRequest (mkAcceptData invitationId userId) a') st' =
       (Throw (Error "Failed to accept invitation: Invitation not found"), st')) ∧
  (∀ env, resendInvitation env (mkRequest invitationId (Some a)) st' =
       (Throw (Error "Failed to resend invitation: Invitation not found"), st')) ∧
  (∀ env a', ¬ valid (verifyInvitation env
                        (mkRequest (mkVerifyData (inv_token inv) (inv_email inv)) a')
                        st').1).
Proof.
  intros Hadmin Hdoc Honly st'. subst st'.
  rewrite (deleteInvitation_unfold _ a) by done. simpl.
  split; [|split].
  - intros env userId a' Hi Hu. rewrite acceptInvitation_unfold by done. simpl.
    by rewrite lookup_delete_eq.
  - intros env. rewrite resendInvitation_unfold by done. simpl.
    by rewrite lookup_delete_eq.
  - intros env a' Hvalid.
    destruct (decide (inv_token inv = "")) as [Ht|Ht].
    { rewrite verifyInvitation_requires_inputs in Hvalid by (simpl; auto). done. }
    destruct (decide (inv_email inv = "")) as [He|He].
    { rewrite verifyInvitation_requires_inputs in Hvalid by (simpl; auto). done. }
    rewrite verifyInvitation_unfold in Hvalid by done. simpl in Hvalid.
    assert (where_ (matches (inv_email inv) (inv_token inv))
              (delete invitationId (invitations st)) = []) as Hnone.
    { apply where_nil. intros k d Hk (_ & Htoken & _).
      apply lookup_delete_Some in Hk as [Hne Hk]. by apply Hne, eq_sym, (Honly k d). }
    by rewrite Hnone in Hvalid.
Qed.

Lemma deleted_invitation_is_gone_witness :
  let st' := (deleteInvitation (mkRequest "d0" (Some coach)) open_store).2 in
  acceptInvitation half_second_late (mkRequest (mkAcceptData "d0" "uid123") None) st' =
    (Throw (Error "Failed to accept invitation: Invitation not found"), st') ∧
  ¬ valid (verifyInvitation half_second_late
             (mkRequest (mkVerifyData "c0ffee" "new@swim.org") None) st').1.
Proof.
  destruct (deleted_invitation_is_gone "d0" coach open_store open_invitation
              (or_introl eq_refl) eq_refl) as (Haccept & _ & Hverify).
  - intros k d Hk _. simpl in Hk. by apply lookup_singleton_Some in Hk as [<- _].
  - split; [by apply Haccept|apply Hverify].
Defined.

(** ** getInvitations *)

(** X4: for an administrator [getInvitations] returns every stored
    invitation, each document once, ordered so that no invitation comes
    before one created later; the store is left as it is. *)
Theorem getInvitations_all_newest_first (request : CallableRequest unit) a st :
  auth request = Some a → is_admin a st →
  ∃ l, getInvitations request st = (Ok l, st) ∧
    l ≡ₚ (map_to_list (invitations st)).*2 ∧
    length l = size (invitations st) ∧
    (∀ d, d ∈ l ↔ ∃ k, invitations st !! k = Some d) ∧
    StronglySorted newer_first l.
Proof.
  intros Hauth Hadmin. rewrite (getInvitations_unfold _ a) by done.
  eexists. split; [done|].
  pose proof (merge_sort_Permutation newer_first (map_to_list (invitations st)).*2)
    as Hperm.
  split; [done|]. split; [|split].
  - by rewrite Hperm, length_fmap, length_map_to_list.
  - intros d. rewrite Hperm, list_elem_of_fmap. split.
    + intros [[k d'] [-> Hin]]. exists k. by apply elem_of_map_to_list.
    + intros [k Hk]. exists (k, d). split; [done|]. by apply elem_of_map_to_list.
  - apply StronglySorted_merge_sort; apply _.
Qed.

Lemma getInvitations_all_newest_first_witness :
  ∃ l, getInvitations (mkRequest tt (Some coach))
         (run sample_history empty_store) = (Ok l, run sample_history empty_store) ∧
       length l = 2%nat ∧ StronglySorted newer_first l.
Proof.
  destruct (getInvitations_all_newest_first (mkRequest tt (Some coach)) coach
              (run sample_history empty_store) eq_refl (or_introl eq_refl))
    as (l & Hrun & _ & Hlen & _ & Hsorted).
  exists l. split; [exact Hrun|]. split; [|exact Hsorted].
  rewrite Hlen. by vm_compute.
Defined.

(** ** resendInvitation *)

(** The old token of a record that has been reissued matches nothing, when
    tokens do not repeat. *)
Lemma reissued_old_token_rejected env (invitationId : string) st inv env1 a1 :
  invitations st !! invitationId = Some inv →
  (∀ k d, invitations st !! k = Some d → inv_token d ≠ generateToken env) →
  (∀ k d, invitations st !! k = Some d → inv_token d = inv_token inv →
          k = invitationId) →
  ¬ valid (verifyInvitation env1
             (mkRequest (mkVerifyData (inv_token inv) (inv_email inv)) a1)
             {| users := users st;
                invitations := <[invitationId := reissued env inv]> (invitations st) |}).1.
Proof.
  intros Hdoc Hfresh Hold Hvalid.
  destruct (decide (inv_token inv = "")) as [Ht|Ht].
  { rewrite verifyInvitation_requires_inputs in Hvalid by (simpl; auto). done. }
  destruct (decide (inv_email inv = "")) as [He|He].
  { rewrite verifyInvitation_requires_inputs in Hvalid by (simpl; auto). done. }
  rewrite verifyInvitation_unfold in Hvalid by done. simpl in Hvalid.
  assert (where_ (matches (inv_email inv) (inv_token inv))
            (<[invitationId := reissued env inv]> (invitations st)) = []) as Hnone.
  { apply where_nil. intros k d Hk (_ & Htoken & _).
    destruct (decide (k = invitationId)) as [->|Hne].
    - rewrite lookup_insert_eq in Hk. injection Hk as <-. simpl in Htoken.
      by apply (Hfresh invitationId inv).
    - rewrite lookup_insert_ne in Hk by done. by apply Hne, (Hold k d). }
  by rewrite Hnone in Hvalid.
Qed.

(** X5: when the mail of a resend does not go out, [resendInvitation] throws
    'Failed to resend invitation: ' followed by the message of the mail
    error, but the record has been rewritten already: it holds the new token
    and the new expiry, and the token it held before no longer verifies
    (tokens not repeating). *)
Theorem resendInvitation_mail_failure_keeps_new_token
    env (invitationId : string) a st inv m :
  is_admin a st →
  invitations st !! invitationId = Some inv → inv_status inv = "pending" →
  sendMail env = Some m →
  (∀ k d, invitations st !! k = Some d → inv_token d ≠ generateToken env) →
  (∀ k d, invitations st !! k = Some d → inv_token d = inv_token inv →
          k = invitationId) →
  ∃ st', resendInvitation env (mkRequest invitationId (Some a)) st =
           (Throw (Error ("Failed to resend invitation: " +:+ m)), st') ∧
    invitations st' !! invitationId = Some (reissued env inv) ∧
    inv_token (reissued env inv) = generateToken env ∧
    inv_expiresAt (reissued env inv) =
      ts_plus_seconds (Timestamp_now env) sevenDaysSeconds ∧
    ∀ env1 a1,
      ¬ valid (verifyInvitation env1
                 (mkRequest (mkVerifyData (inv_token inv) (inv_email inv)) a1) st').1.
Proof.
  intros Hadmin Hdoc Hpending Hmail Hfresh Hold.
  rewrite resendInvitation_unfold by done.
  rewrite Hdoc, bool_decide_eq_true_2, Hmail by done.
  eexists. split; [done|]. simpl. rewrite lookup_insert_eq.
  split; [done|]. split; [done|]. split.
  - unfold Timestamp_now. by rewrite fromDate_plus_sevenDays.
  - intros env1 a1. by apply reissued_old_token_rejected.
Qed.

Lemma resendInvitation_mail_failure_keeps_new_token_witness :
  ∃ st', resendInvitation (sample_envs 1) (mkRequest "d0" (Some coach)) open_store =
           (Throw (Error "Failed to resend invitation: SMTP down"), st') ∧
    inv_token <$> invitations st' !! "d0" = Some sample_token.
Proof.
  destruct (resendInvitation_mail_failure_keeps_new_token (sample_envs 1) "d0" coach
              open_store open_invitation "SMTP down"
              (or_introl eq_refl) eq_refl eq_refl eq_refl)
    as (st' & Hrun & Hdoc & _).
  - intros k d Hk. simpl in Hk. apply lookup_singleton_Some in Hk as [_ <-].
    vm_compute. discriminate.
  - intros k d Hk _. simpl in Hk. by apply lookup_singleton_Some in Hk as [<- _].
  - exists st'. split; [exact Hrun|]. by rewrite Hdoc.
Defined.

(** X6: [resendInvitation] succeeds exactly when the caller is an
    administrator, the id names a stored record, the record is pending and
    the mail goes out. The expiry date of the record plays no part: a pending
    invitation that expired long ago is reissued like any other. *)
Theorem resendInvitation_succeeds_iff env (request : CallableRequest string) st :
  (∃ ok st', resendInvitation env request st = (Ok ok, st')) ↔
  ∃ a inv, auth request = Some a ∧ is_admin a st ∧
    invitations st !! data request = Some inv ∧ inv_status inv = "pending" ∧
    sendMail env = None.
Proof.
  split.
  - intros (ok & st' & Hrun).
    apply resendInvitation_success in Hrun as (a & inv & ? & ? & ? & ? & ? & _).
    by exists a, inv.
  - intros (a & inv & Hauth & Hadmin & Hdoc & Hpending & Hmail).
    destruct request as [invitationId auth0]. simpl in *. subst auth0.
    rewrite resendInvitation_unfold by done.
    rewrite Hdoc, bool_decide_eq_true_2, Hmail by done. eauto.
Qed.

Lemma resendInvitation_succeeds_iff_witness :
  ts_lt (inv_expiresAt lapsed_invitation) (Timestamp_now (long_after 0%nat)) ∧
  ∃ ok st', resendInvitation (long_after 0%nat) (mkRequest "d0" (Some coach))
              lapsed_store = (Ok ok, st').
Proof.
  split; [left; reflexivity|].
  apply (proj2 (resendInvitation_succeeds_iff (long_after 0%nat)
                  (mkRequest "d0" (Some coach)) lapsed_store)).
  exists coach, lapsed_invitation. repeat split. by left.
Defined.

(** X7: whatever its outcome, [resendInvitation] leaves the user documents
    and every invitation but the one it names as they are; the one it names
    is either untouched or keeps its id, address, status, creation data, role
    and acceptance fields, and the store changes only for an administrator
    and a pending record. *)
Theorem resendInvitation_frame env (request : CallableRequest string) st :
  let st' := (resendInvitation env request st).2 in
  users st' = users st ∧
  (∀ k, k ≠ data request → invitations st' !! k = invitations st !! k) ∧
  (st' = st ∨
   ∃ a inv, auth request = Some a ∧ is_admin a st ∧
     invitations st !! data request = Some inv ∧ inv_status inv = "pending" ∧
     ∃ d, invitations st' !! data request = Some d ∧
       inv_id d = inv_id inv ∧ inv_email d = inv_email inv ∧
       inv_status d = inv_status inv ∧ inv_createdAt d = inv_createdAt inv ∧
       inv_createdBy d = inv_createdBy inv ∧ inv_role d = inv_role inv ∧
       inv_acceptedAt d = inv_acceptedAt inv ∧ inv_acceptedBy d = inv_acceptedBy inv ∧
       inv_updatedAt d = Some (serverTimestamp env)).
Proof.
  intros st'. subst st'. destruct request as [invitationId [a|]]; cbn [data auth].
  - destruct (decide (is_admin a st)) as [Hadmin|Hno].
    + rewrite resendInvitation_unfold by done.
      destruct (invitations st !! invitationId) as [inv|] eqn:Hdoc; [|simpl; auto].
      case_bool_decide; [|simpl; auto]. simpl.
      split; [done|]. split; [intros k Hk; by apply lookup_insert_ne|].
      right. exists a, inv. repeat split; try done.
      exists (reissued env inv). rewrite lookup_insert_eq. by repeat split.
    + rewrite (resendInvitation_not_admin _ _ a) by done. simpl. auto.
  - rewrite resendInvitation_unauthenticated by done. simpl. auto.
Qed.

(** ** acceptInvitation *)

(** X8: [acceptInvitation] succeeds exactly when it is given an id and a
    user id, the id names a stored record, the record is pending, and the
    clock has not passed the second of [expiresAt]; no administrator is
    needed. Past that second it throws 'Invitation has expired' and the
    record stays in the store, pending. *)
Theorem acceptInvitation_succeeds_iff env (request : CallableRequest AcceptData) st :
  ((∃ ok st', acceptInvitation env request st = (Ok ok, st')) ↔
   a_invitationId (data request) ≠ "" ∧ a_userId (data request) ≠ "" ∧
   ∃ inv, invitations st !! a_invitationId (data request) = Some inv ∧
          inv_status inv = "pending" ∧ live_at (Timestamp_now env) inv) ∧
  (∀ inv, a_invitationId (data request) ≠ "" → a_userId (data request) ≠ "" →
     invitations st !! a_invitationId (data request) = Some inv →
     inv_status inv = "pending" → ¬ live_at (Timestamp_now env) inv →
     acceptInvitation env request st =
       (Throw (Error "Failed to accept invitation: Invitation has expired"), st)).
Proof.
  split; [split|].
  - intros (ok & st' & Hrun).
    apply acceptInvitation_success in Hrun as (Hi & Hu & inv & Hdoc & Hp & Hlive & _).
    eauto 10.
  - intros (Hi & Hu & inv & Hdoc & Hp & Hlive).
    rewrite acceptInvitation_unfold, Hdoc, bool_decide_eq_true_2 by done.
    rewrite bool_decide_eq_false_2 by (unfold live_at in Hlive; lia). eauto.
  - intros inv Hi Hu Hdoc Hp Hlate.
    rewrite acceptInvitation_unfold, Hdoc, bool_decide_eq_true_2 by done.
    by rewrite bool_decide_eq_true_2 by (unfold live_at in Hlate; lia).
Qed.

Lemma acceptInvitation_succeeds_iff_witness :
  acceptInvitation (long_after 0%nat) (mkRequest (mkAcceptData "d0" "uid123") None)
    lapsed_store =
  (Throw (Error "Failed to accept invitation: Invitation has expired"), lapsed_store).
Proof.
  apply (proj2 (acceptInvitation_succeeds_iff (long_after 0%nat)
                  (mkRequest (mkAcceptData "d0" "uid123") None) lapsed_store)
           lapsed_invitation); try discriminate; try reflexivity.
  unfold live_at. vm_compute. intros H. by apply H.
Defined.

(** X9: whatever its outcome, [acceptInvitation] leaves the user documents
    and every invitation but the one it names as they are; the one it names
    is either untouched or differs in [status], [acceptedAt] and
    [acceptedBy] only. *)
Theorem acceptInvitation_frame env (request : CallableRequest AcceptData) st :
  let st' := (acceptInvitation env request st).2 in
  users st' = users st ∧
  (∀ k, k ≠ a_invitationId (data request) →
        invitations st' !! k = invitations st !! k) ∧
  (st' = st ∨
   ∃ inv d, invitations st !! a_invitationId (data request) = Some inv ∧
     invitations st' !! a_invitationId (data request) = Some d ∧
     inv_id d = inv_id inv ∧ inv_email d = inv_email inv ∧
     inv_token d = inv_token inv ∧ inv_expiresAt d = inv_expiresAt inv ∧
     inv_createdAt d = inv_createdAt inv ∧ inv_createdBy d = inv_createdBy inv ∧
     inv_role d = inv_role inv ∧ inv_updatedAt d = inv_updatedAt inv ∧
     inv_status d = "accepted" ∧ inv_acceptedBy d = Some (a_userId (data request))).
Proof.
  intros st'. subst st'.
  destruct (acceptInvitation_store env request st) as [-> | (inv & Hdoc & ->)];
    [auto|]. simpl.
  split; [done|]. split; [intros k Hk; by apply lookup_insert_ne|].
  right. exists inv, (accepted_by env (a_userId (data request)) inv).
  rewrite lookup_insert_eq. by repeat split.
Qed.

(** X10: after [acceptInvitation] has succeeded, the token of the invitation
    no longer verifies, at any time, provided no other record carries the
    same token. *)
Theorem accepted_invitation_no_longer_verifies
    env (request : CallableRequest AcceptData) st st' ok inv :
  acceptInvitation env request st = (Ok ok, st') →
  invitations st !! a_invitationId (data request) = Some inv →
  (∀ k d, invitations st !! k = Some d → inv_token d = inv_token inv →
          k = a_invitationId (data request)) →
  ∀ env1 a1,
    ¬ valid (verifyInvitation env1
               (mkRequest (mkVerifyData (inv_token inv) (inv_email inv)) a1) st').1.
Proof.
  intros Hrun Hdoc Honly env1 a1 Hvalid.
  apply acceptInvitation_success in Hrun as (_ & _ & inv0 & Hdoc0 & _ & _ & ->).
  rewrite Hdoc in Hdoc0. injection Hdoc0 as <-.
  destruct (decide (inv_token inv = "")) as [Ht|Ht].
  { rewrite verifyInvitation_requires_inputs in Hvalid by (simpl; auto). done. }
  destruct (decide (inv_email inv = "")) as [He|He].
  { rewrite verifyInvitation_requires_inputs in Hvalid by (simpl; auto). done. }
  rewrite verifyInvitation_unfold in Hvalid by done. simpl in Hvalid.
  assert (where_ (matches (inv_email inv) (inv_token inv))
            (<[a_invitationId (data request) :=
                 accepted_by env (a_userId (data request)) inv]> (invitations st)) = [])
    as Hnone.
  { apply where_nil. intros k d Hk (_ & Htoken & Hstatus).
    destruct (decide (k = a_invitationId (data request))) as [->|Hne].
    - rewrite lookup_insert_eq in Hk. injection Hk as <-. simpl in Hstatus. done.
    - rewrite lookup_insert_ne in Hk by done. by apply Hne, (Honly k d). }
  by rewrite Hnone in Hvalid.
Qed.

Lemma accepted_invitation_no_longer_verifies_witness :
  let first := acceptInvitation half_second_late
                 (mkRequest (mkAcceptData "d0" "uid123") None) open_store in
  first.1 = Ok success_true ∧
  ¬ valid (verifyInvitation half_second_late
             (mkRequest (mkVerifyData "c0ffee" "new@swim.org") None) first.2).1.
Proof.
  split; [reflexivity|].
  apply (accepted_invitation_no_longer_verifies half_second_late
           (mkRequest (mkAcceptData "d0" "uid123") None) open_store _ success_true
           open_invitation eq_refl eq_refl).
  intros k d Hk _. simpl in Hk. by apply lookup_singleton_Some in Hk as [<- _].
Defined.

(** ** What every history of calls keeps *)

(** A property of stores that each turn of the loop keeps is kept by
    [sendInvitations]. *)
Lemma forEmails_invariant (P : Store → Prop) env i createdBy l r st r' st' :
  (∀ e email r0 s r1 s1, item_step e createdBy email r0 s r1 s1 → P s → P s1) →
  forEmails env i createdBy l r st = (Ok r', st') → P st → P st'.
Proof.
  intros Hturn. revert i r st. induction l as [|email l IH]; intros i r st; simpl.
  - by intros [= <- <-].
  - unfold bind.
    destruct (processEmail_step (env i) createdBy email r st) as (r1 & s1 & -> & Hstep).
    intros Hrest HP. eapply IH; [done|]. by eapply Hturn.
Qed.

Lemma sendInvitations_invariant (P : Store → Prop) env
    (request : CallableRequest SendData) st :
  (∀ e createdBy email r0 s r1 s1, item_step e createdBy email r0 s r1 s1 → P s → P s1) →
  P st → P (sendInvitations env request st).2.
Proof.
  intros Hturn HP. destruct (auth request) as [a|] eqn:Hauth.
  - destruct (decide (is_admin a st)) as [Hadmin|Hno].
    + rewrite (sendInvitations_unfold _ _ a) by done.
      destruct (empty_snapshot (emails (data request))); [done|].
      destruct (forEmails_returns env 0 (createdBy_of request a)
                  (emails (data request)) no_results st) as (r & s & Hrun).
      rewrite Hrun. simpl. eapply forEmails_invariant; [|done|done]. eauto.
    + by rewrite (sendInvitations_not_admin _ _ a).
  - by rewrite sendInvitations_unauthenticated.
Qed.

(** A property of stores that holds with no invitations and that every call
    keeps holds after every history. *)
Lemma run_invariant (P : Store → Prop) (calls : list Call) st :
  (∀ c s, P s → P (step c s)) → P st → P (run calls st).
Proof.
  intros Hstep. revert st. induction calls as [|c calls IH]; intros st HP; [done|].
  simpl. by apply IH, Hstep.
Qed.

Lemma newInvitation_well_formed env createdBy email :
  record_well_formed (autoId env) (newInvitation env createdBy email).
Proof.
  split; [done|]. split; [by left|].
  split; [reflexivity|apply toString_hex_digits].
Qed.

Lemma step_records_well_formed (c : Call) st :
  map_Forall record_well_formed (invitations st) →
  map_Forall record_well_formed (invitations (step c st)).
Proof.
  intros Hst. destruct c as [env rq|env rq|rq|rq|env rq|env rq]; simpl.
  - intros k d Hk.
    apply sendInvitations_store in Hk as [Hold|(j & cb & e & _ & -> & ->)];
      [by apply Hst|apply newInvitation_well_formed].
  - destruct (resendInvitation_store env rq st) as [-> | (inv & Hdoc & Hpending & ->)];
      [done|]. simpl. intros k d Hk.
    apply lookup_insert_Some in Hk as [[<- <-] | [_ Hk]]; [|by apply Hst].
    destruct (Hst _ _ Hdoc) as (Hid & Hacc & Htok).
    split; [done|]. split.
    + destruct Hacc as [(? & ? & ?)|(? & ? & ?)]; [by left|by right].
    + split; [reflexivity|apply toString_hex_digits].
  - destruct (deleteInvitation_store rq st) as [-> | ->]; [done|]. simpl.
    intros k d Hk. apply lookup_delete_Some in Hk as [_ Hk]. by apply Hst.
  - by rewrite getInvitations_store.
  - by rewrite verifyInvitation_store.
  - destruct (acceptInvitation_store env rq st) as [-> | (inv & Hdoc & ->)]; [done|].
    simpl. intros k d Hk.
    apply lookup_insert_Some in Hk as [[<- <-] | [_ Hk]]; [|by apply Hst].
    destruct (Hst _ _ Hdoc) as (Hid & _ & Htok).
    split; [done|]. split; [|done]. right. simpl. eauto.
Qed.

(** X11: in every store that a history of calls builds from an empty
    [invitations] collection, each invitation is stored under the id its
    [id] field names, its token has 64 lower-case hexadecimal digits, and it
    is either pending without [acceptedAt] and [acceptedBy] or accepted with
    both. *)
Theorem stored_records_well_formed (calls : list Call) st0 k d :
  invitations st0 = ∅ →
  invitations (run calls st0) !! k = Some d →
  inv_id d = k ∧
  String.length (inv_token d) = 64%nat ∧
  Forall (λ c, is_hex_digit c = true) (String.list_ascii_of_string (inv_token d)) ∧
  ((inv_status d = "pending" ∧ inv_acceptedAt d = None ∧ inv_acceptedBy d = None) ∨
   (inv_status d = "accepted" ∧ is_Some (inv_acceptedAt d) ∧ is_Some (inv_acceptedBy d))).
Proof.
  intros Hempty Hk.
  assert (map_Forall record_well_formed (invitations (run calls st0))) as Hall.
  { apply (run_invariant (λ s, map_Forall record_well_formed (invitations s)));
      [apply step_records_well_formed|].
    rewrite Hempty. apply map_Forall_empty. }
  destruct (Hall k d Hk) as (Hid & Hacc & Hlen & Hhex). auto.
Qed.

Lemma stored_records_well_formed_witness :
  ∃ d, invitations (run sample_history empty_store) !! "d1" = Some d ∧
       inv_id d = "d1" ∧ String.length (inv_token d) = 64%nat.
Proof.
  assert (∃ d, invitations (run sample_history empty_store) !! "d1" = Some d)
    as [d Hd] by (eexists; vm_compute; reflexivity).
  exists d. split; [exact Hd|].
  destruct (stored_records_well_formed sample_history empty_store "d1" d eq_refl Hd)
    as (Hid & Hlen & _). by split.
Defined.

Lemma item_step_one_pending env createdBy email r s r' s' :
  item_step env createdBy email r s r' s' →
  one_pending_per_email s → one_pending_per_email s'.
Proof.
  intros Hstep Hone.
  assert (¬ has_pending s email → one_pending_per_email (with_invitation env createdBy email s))
    as Hnew.
  { intros Hnone k1 k2 d1 d2 H1 H2 Hmail Hp1 Hp2. simpl in H1, H2.
    apply lookup_insert_Some in H1 as [[<- <-] | [Hne1 H1]];
      apply lookup_insert_Some in H2 as [[<- <-] | [Hne2 H2]]; try done.
    - destruct Hnone. exists k2, d2. simpl in Hmail. by split.
    - destruct Hnone. exists k1, d1. simpl in Hmail. by split.
    - by apply (Hone k1 k2 d1 d2). }
  destruct Hstep; auto.
Qed.

Lemma step_one_pending (c : Call) st :
  one_pending_per_email st → one_pending_per_email (step c st).
Proof.
  intros Hone. destruct c as [env rq|env rq|rq|rq|env rq|env rq]; simpl.
  - apply sendInvitations_invariant; [|done].
    intros e cb email r0 s r1 s1. apply item_step_one_pending.
  - destruct (resendInvitation_store env rq st) as [-> | (inv & Hdoc & Hpending & ->)];
      [done|]. intros k1 k2 d1 d2 H1 H2 Hmail Hp1 Hp2. simpl in H1, H2.
    apply lookup_insert_Some in H1 as [[<- <-] | [Hne1 H1]];
      apply lookup_insert_Some in H2 as [[<- <-] | [Hne2 H2]]; try done.
    + by apply (Hone (data rq) k2 inv d2).
    + by apply (Hone k1 (data rq) d1 inv).
    + by apply (Hone k1 k2 d1 d2).
  - destruct (deleteInvitation_store rq st) as [-> | ->]; [done|].
    intros k1 k2 d1 d2 H1 H2. simpl in H1, H2.
    apply lookup_delete_Some in H1 as [_ H1]. apply lookup_delete_Some in H2 as [_ H2].
    by apply (Hone k1 k2 d1 d2).
  - by rewrite getInvitations_store.
  - by rewrite verifyInvitation_store.
  - destruct (acceptInvitation_store env rq st) as [-> | (inv & Hdoc & ->)]; [done|].
    intros k1 k2 d1 d2 H1 H2 Hmail Hp1 Hp2. simpl in H1, H2.
    apply lookup_insert_Some in H1 as [[<- <-] | [Hne1 H1]];
      apply lookup_insert_Some in H2 as [[<- <-] | [Hne2 H2]]; try done.
    by apply (Hone k1 k2 d1 d2).
Qed.

(** X12: calls made one after the other never leave an address with two
    pending invitations: in every store that a history of calls builds from
    an empty [invitations] collection, two different documents for the same
    address are not both pending. *)
Theorem at_most_one_pending_per_email (calls : list Call) st0 k1 k2 d1 d2 :
  invitations st0 = ∅ →
  invitations (run calls st0) !! k1 = Some d1 →
  invitations (run calls st0) !! k2 = Some d2 →
  k1 ≠ k2 → inv_email d1 = inv_email d2 →
  ¬ (inv_status d1 = "pending" ∧ inv_status d2 = "pending").
Proof.
  intros Hempty H1 H2 Hne Hmail [Hp1 Hp2]. apply Hne.
  revert H1 H2 Hmail Hp1 Hp2.
  apply (run_invariant one_pending_per_email); [apply step_one_pending|].
  intros j1 j2 e1 e2 H1. by rewrite Hempty, lookup_empty in H1.
Qed.

Lemma at_most_one_pending_per_email_witness :
  ∃ d1 d2, invitations (run reinvite_history empty_store) !! "d0" = Some d1 ∧
           invitations (run reinvite_history empty_store) !! "d1" = Some d2 ∧
           inv_email d1 = inv_email d2 ∧
           ¬ (inv_status d1 = "pending" ∧ inv_status d2 = "pending").
Proof.
  assert (∃ d1 d2, invitations (run reinvite_history empty_store) !! "d0" = Some d1 ∧
                   invitations (run reinvite_history empty_store) !! "d1" = Some d2 ∧
                   inv_email d1 = inv_email d2)
    as (d1 & d2 & H1 & H2 & Hmail) by (eexists _, _; vm_compute; done).
  exists d1, d2. split; [exact H1|]. split; [exact H2|]. split; [exact Hmail|].
  apply (at_most_one_pending_per_email reinvite_history empty_store "d0" "d1" d1 d2
           eq_refl H1 H2); [discriminate|exact Hmail].
Defined.

(** ** From verification to acceptance *)

(** X13: on a store whose documents sit under their own ids, the id that a
    successful [verifyInvitation] returns names the pending record that
    matched, and [acceptInvitation] with that id and any user id succeeds for
    as long as the clock has not passed the second of that record's
    [expiresAt]. *)
Theorem verified_invitation_can_be_accepted
    env (request : CallableRequest VerifyData) st (id email role : string) :
  keyed_by_id st →
  (verifyInvitation env request st).1 = Ok (Valid id email role) →
  ∃ inv, invitations st !! id = Some inv ∧
    matches (v_email (data request)) (v_token (data request)) inv ∧
    email = v_email (data request) ∧ live_at (Timestamp_now env) inv ∧
    ∀ env' userId a', id ≠ "" → userId ≠ "" → live_at (Timestamp_now env') inv →
      ∃ st', acceptInvitation env' (mkRequest (mkAcceptData id userId) a') st =
               (Ok success_true, st') ∧
             invitations st' !! id = Some (accepted_by env' userId inv).
Proof.
  intros Hkeyed Hverify.
  destruct (decide (v_token (data request) = "")) as [Ht|Ht].
  { rewrite verifyInvitation_requires_inputs in Hverify; auto. discriminate. }
  destruct (decide (v_email (data request) = "")) as [He|He].
  { rewrite verifyInvitation_requires_inputs in Hverify; auto. discriminate. }
  rewrite verifyInvitation_unfold in Hverify by done. simpl in Hverify.
  destruct (head _) as [inv|] eqn:Hhead; [|discriminate].
  case_bool_decide; [discriminate|]. injection Hverify as <- <- <-.
  apply where_head in Hhead as [Hm [k Hk]].
  rewrite (Hkeyed k inv Hk). exists inv. split; [done|]. split; [done|].
  split; [by destruct Hm|]. split; [unfold live_at, Timestamp_now in *; simpl in *; lia|].
  intros env' userId a' Hi Hu Hlive. destruct Hm as (_ & _ & Hpending).
  rewrite acceptInvitation_unfold by done. simpl.
  rewrite Hk, bool_decide_eq_true_2 by done.
  rewrite bool_decide_eq_false_2
    by (unfold live_at, Timestamp_now in *; simpl in *; lia).
  eexists. split; [done|]. simpl. apply lookup_insert_eq.
Qed.

Lemma verified_invitation_can_be_accepted_witness :
  (verifyInvitation half_second_late
     (mkRequest (mkVerifyData "c0ffee" "new@swim.org") None) open_store).1 =
    Ok (Valid "d0" "new@swim.org" "supporter") ∧
  ∃ st', acceptInvitation minute_later
           (mkRequest (mkAcceptData "d0" "new@swim.org") None) open_store =
           (Ok success_true, st').
Proof.
  split; [reflexivity|].
  destruct (verified_invitation_can_be_accepted half_second_late
              (mkRequest (mkVerifyData "c0ffee" "new@swim.org") None) open_store
              "d0" "new@swim.org" "supporter") as (inv & Hdoc & _ & _ & _ & Haccept).
  - intros k d Hk. simpl in Hk. by apply lookup_singleton_Some in Hk as [<- <-].
  - reflexivity.
  - destruct (Haccept minute_later "new@swim.org" None) as (st' & Hrun & _);
      [discriminate|discriminate| |by exists st'].
    simpl in Hdoc. apply lookup_singleton_Some in Hdoc as [_ <-].
    unfold live_at. by vm_compute.
Defined.

(** ** How long a new invitation lives *)

Lemma fromDate_seconds_le (t1 t2 : Z) :
  t1 ≤ t2 → seconds (Timestamp_fromDate t1) ≤ seconds (Timestamp_fromDate t2).
Proof. intros Hle. simpl. apply Z.div_le_mono; lia. Qed.

Lemma fromDate_seconds_lt (t1 t2 : Z) :
  t1 + 1000 ≤ t2 → seconds (Timestamp_fromDate t1) < seconds (Timestamp_fromDate t2).
Proof.
  intros Hle. simpl.
  assert ((t1 + 1 * 1000) / 1000 ≤ t2 / 1000) as Hq by (apply Z.div_le_mono; lia).
  rewrite Z.div_add in Hq by lia. lia.
Qed.

(** X14: an administrator invites one address that has no account and no
    pending invitation, and the token drawn is new to the store. Whether or
    not the mail goes out, the token then verifies, with the id drawn for the
    document and the role 'supporter', at every clock reading up to seven
    days after the reading of the call, and is refused as expired from one
    second after those seven days on. *)
Theorem new_invitation_lives_seven_days env a st (email : string) invitedBy :
  is_admin a st → email ≠ "" →
  ¬ has_account st email → ¬ has_pending st email →
  (∀ k d, invitations st !! k = Some d → inv_token d ≠ generateToken (env 0%nat)) →
  let st' := (sendInvitations env
                (mkRequest (mkSendData [email] invitedBy) (Some a)) st).2 in
  let verify env1 a1 :=
    verifyInvitation env1
      (mkRequest (mkVerifyData (generateToken (env 0%nat)) email) a1) st' in
  (∀ env1 a1, Date_now env1 ≤ Date_now (env 0%nat) + sevenDays →
     verify env1 a1 = (Ok (Valid (autoId (env 0%nat)) email "supporter"), st')) ∧
  (∀ env1 a1, Date_now (env 0%nat) + sevenDays + 1000 ≤ Date_now env1 →
     verify env1 a1 = (Ok (NotValid "Invitation has expired"), st')).
Proof.
  intros Hadmin Hemail Hno_account Hno_pending Hfresh st' verify.
  assert (st' = with_invitation (env 0%nat)
                  (js_or invitedBy (tok_email (auth_token a))) email st) as Hst'.
  { subst st'. rewrite (sendInvitations_unfold _ _ a) by done. simpl. unfold bind.
    destruct (sendMail (env 0%nat)) as [m|] eqn:Hmail.
    - by rewrite (processEmail_dispatch_failed _ _ _ _ _ m).
    - by rewrite processEmail_sent. }
  assert (∀ env1 a1, verify env1 a1 =
    (if bool_decide (seconds (Timestamp_fromDate (Date_now (env 0%nat) + sevenDays))
                     < seconds (Timestamp_now env1))
     then Ok (NotValid "Invitation has expired")
     else Ok (Valid (autoId (env 0%nat)) email "supporter"), st')) as Hverify.
  { intros env1 a1. subst verify. simpl.
    rewrite verifyInvitation_unfold by (simpl; auto using generateToken_nonempty).
    simpl. rewrite Hst'. simpl.
    rewrite (where_unique _ _ (autoId (env 0%nat))
               (newInvitation (env 0%nat) (js_or invitedBy (tok_email (auth_token a)))
                  email)); [done|apply lookup_insert_eq|by repeat split|].
    intros k d Hk (_ & Htoken & _).
    destruct (decide (k = autoId (env 0%nat))) as [->|Hne]; [done|].
    rewrite lookup_insert_ne in Hk by done. by destruct (Hfresh k d). }
  split; intros env1 a1 Hclock; rewrite Hverify.
  - rewrite bool_decide_eq_false_2; [done|].
    pose proof (fromDate_seconds_le _ _ Hclock). unfold Timestamp_now. lia.
  - rewrite bool_decide_eq_true_2; [done|].
    unfold Timestamp_now. by apply fromDate_seconds_lt.
Qed.

Lemma new_invitation_lives_seven_days_witness :
  let st' := (sendInvitations sample_envs
                (mkRequest (mkSendData ["b@x.org"] None) (Some coach)) empty_store).2 in
  verifyInvitation minute_later
    (mkRequest (mkVerifyData sample_token "b@x.org") None) st' =
    (Ok (Valid "d0" "b@x.org" "supporter"), st') ∧
  verifyInvitation (long_after 0%nat)
    (mkRequest (mkVerifyData sample_token "b@x.org") None) st' =
    (Ok (NotValid "Invitation has expired"), st').
Proof.
  destruct (new_invitation_lives_seven_days sample_envs coach empty_store "b@x.org" None)
    as [Hlive Hdead].
  - by left.
  - discriminate.
  - apply (bool_decide_unpack _). by vm_compute.
  - apply (bool_decide_unpack _). by vm_compute.
  - intros k d Hk. simpl in Hk. by rewrite lookup_empty in Hk.
  - split.
    + apply (Hlive minute_later None). by vm_compute.
    + apply (Hdead (long_after 0%nat) None). by vm_compute.
Defined.

(** ** sendInvitations as a whole *)

(** X15: [sendInvitations] returns its two lists exactly when the caller is
    an administrator and the list of addresses is not empty. In every other
    case it throws one of three messages and has written nothing; an
    administrator who sends an empty list gets the message about the input. *)
Theorem sendInvitations_returns_iff env (request : CallableRequest SendData) st :
  ((∃ results st', sendInvitations env request st = (Ok results, st')) ↔
   (∃ a, auth request = Some a ∧ is_admin a st) ∧ emails (data request) ≠ []) ∧
  (∀ e st', sendInvitations env request st = (Throw e, st') →
     st' = st ∧
     message e ∈
       [ "Unauthorized: You must be logged in to send invitations";
         "Failed to send invitations: Unauthorized: Only admins can send invitations";
         "Failed to send invitations: Invalid input: emails must be a non-empty array" ]) ∧
  (∀ a, auth request = Some a → is_admin a st → emails (data request) = [] →
     sendInvitations env request st =
       (Throw (Error ("Failed to send invitations: " +:+
                      "Invalid input: emails must be a non-empty array")), st)).
Proof.
  destruct (auth request) as [a|] eqn:Hauth.
  - destruct (decide (is_admin a st)) as [Hadmin|Hno].
    + rewrite (sendInvitations_unfold _ _ a) by done.
      destruct (emails (data request)) as [|e0 rest] eqn:Hemails.
      * simpl. split; [split|split].
        -- by intros (r & s & [=]).
        -- by intros [_ ?].
        -- intros e st' [= <- <-]. split; [done|]. simpl. set_solver.
        -- done.
      * destruct (forEmails_returns env 0 (createdBy_of request a) (e0 :: rest)
                    no_results st) as (r & s & Hrun).
        change (empty_snapshot (e0 :: rest)) with false. cbv iota. rewrite Hrun.
        split; [split|split].
        -- intros _. split; [eauto|done].
        -- intros _. eauto.
        -- by intros e st' [=].
        -- by intros a' _ _ [=].
    + rewrite (sendInvitations_not_admin _ _ a) by done.
      split; [split|split].
      * by intros (r & s & [=]).
      * intros [(a' & [= <-] & Hadmin) _]. done.
      * intros e st' [= <- <-]. split; [done|]. simpl. set_solver.
      * intros a' [= <-] Hadmin. done.
  - rewrite sendInvitations_unauthenticated by done.
    split; [split|split].
    + by intros (r & s & [=]).
    + by intros [(a' & [=] & _) _].
    + intros e st' [= <- <-]. split; [done|]. simpl. set_solver.
    + by intros a' [=].
Qed.

Lemma sendInvitations_returns_iff_witness :
  sendInvitations sample_envs (mkRequest (mkSendData [] None) (Some coach)) open_store =
  (Throw (Error "Failed to send invitations: Invalid input: emails must be a non-empty array"),
   open_store).
Proof.
  apply (proj2 (proj2 (sendInvitations_returns_iff sample_envs
                         (mkRequest (mkSendData [] None) (Some coach)) open_store))
           coach eq_refl (or_introl eq_refl) eq_refl).
Defined.

(** X16: [sendInvitations] never touches the user documents, and it leaves
    every invitation that was in the store as it was, unless a turn of its
    loop draws the document id of that invitation for a new record. *)
Theorem sendInvitations_keeps_existing env (request : CallableRequest SendData) st k d :
  invitations st !! k = Some d →
  (∀ j, (j < length (emails (data request)))%nat → autoId (env j) ≠ k) →
  users (sendInvitations env request st).2 = users st ∧
  invitations (sendInvitations env request st).2 !! k = Some d.
Proof.
  intros Hk Hids. split; [apply sendInvitations_store|].
  destruct (auth request) as [a|] eqn:Hauth.
  - destruct (decide (is_admin a st)) as [Hadmin|Hno].
    + rewrite (sendInvitations_unfold _ _ a) by done.
      destruct (empty_snapshot (emails (data request))); [done|].
      destruct (forEmails_returns env 0 (createdBy_of request a)
                  (emails (data request)) no_results st) as (r & s & Hrun).
      rewrite Hrun. simpl. by eapply forEmails_keeps.
    + by rewrite (sendInvitations_not_admin _ _ a).
  - by rewrite sendInvitations_unauthenticated.
Qed.

Lemma sendInvitations_keeps_existing_witness :
  invitations (sendInvitations (λ i, sample_envs (S i))
                 (mkRequest (mkSendData ["b@x.org"] None) (Some coach)) open_store).2
    !! "d0" = Some open_invitation.
Proof.
  apply (sendInvitations_keeps_existing (λ i, sample_envs (S i))
           (mkRequest (mkSendData ["b@x.org"] None) (Some coach)) open_store
           "d0" open_invitation eq_refl).
  intros j Hj. simpl in Hj. assert (j = 0%nat) as -> by lia. discriminate.
Defined.

Lemma item_step_sublists env createdBy email r s r' s' :
  item_step env createdBy email r s r' s' →
  (success r' = success r ∧
   f_email <$> failed r' = ((f_email <$> failed r) ++ [email])%list) ∨
  (success r' = (success r ++ [email])%list ∧ failed r' = failed r).
Proof. destruct 1; simpl; rewrite ?fmap_app; auto. Qed.

Lemma forEmails_sublists env i createdBy l r st r' st' :
  forEmails env i createdBy l r st = (Ok r', st') →
  ∃ l1 l2, success r' = (success r ++ l1)%list ∧
           f_email <$> failed r' = ((f_email <$> failed r) ++ l2)%list ∧
           l1 `sublist_of` l ∧ l2 `sublist_of` l.
Proof.
  revert i r st. induction l as [|email l IH]; intros i r st; simpl.
  - intros [= <- <-]. exists [], []. by rewrite !app_nil_r.
  - unfold bind.
    destruct (processEmail_step (env i) createdBy email r st) as (r1 & s1 & -> & Hstep).
    intros Hrest. destruct (IH _ _ _ Hrest) as (l1 & l2 & Hs & Hf & Hsub1 & Hsub2).
    apply item_step_sublists in Hstep as [[Hs1 Hf1] | [Hs1 Hf1]].
    + exists l1, (email :: l2). rewrite Hs, Hf, Hs1, Hf1, <- (assoc_L (++)).
      repeat split; [by apply sublist_cons|by apply sublist_skip].
    + exists (email :: l1), l2. rewrite Hs, Hf, Hs1, Hf1, <- (assoc_L (++)).
      repeat split; [by apply sublist_skip|by apply sublist_cons].
Qed.

(** X17: both result lists keep the order of the input: the addresses in
    [success], and the addresses of the entries in [failed], each read in
    order, are picked from the input list without reordering. *)
Theorem sendInvitations_keeps_order env (request : CallableRequest SendData) st results st' :
  sendInvitations env request st = (Ok results, st') →
  success results `sublist_of` emails (data request) ∧
  (f_email <$> failed results) `sublist_of` emails (data request).
Proof.
  intros Hrun.
  destruct (auth request) as [a|] eqn:Hauth.
  - destruct (decide (is_admin a st)) as [Hadmin|Hno].
    + rewrite (sendInvitations_unfold _ _ a) in Hrun by done.
      destruct (empty_snapshot (emails (data request))); [discriminate|].
      apply forEmails_sublists in Hrun as (l1 & l2 & -> & -> & Hsub1 & Hsub2).
      done.
    + rewrite (sendInvitations_not_admin _ _ a) in Hrun by done. discriminate.
  - rewrite sendInvitations_unauthenticated in Hrun by done. discriminate.
Qed.

Lemma sendInvitations_keeps_order_witness :
  ["a@x.org"] `sublist_of` ["a@x.org"; "b@x.org"; "a@x.org"] ∧
  ["b@x.org"; "a@x.org"] `sublist_of` ["a@x.org"; "b@x.org"; "a@x.org"].
Proof.
  exact (sendInvitations_keeps_order sample_envs sample_batch empty_store _ _ eq_refl).
Defined.

Lemma loop_after_success_pending env createdBy todo st i :
  (∀ j1 j2, (j1 < j2 < length todo)%nat → autoId (env j1) ≠ autoId (env j2)) →
  (i ≤ length todo)%nat →
  ∃ r s, loop_after env createdBy todo st i = (Ok r, s) ∧
    NoDup (success r) ∧
    ∀ e, e ∈ success r →
      ∃ j d, (j < i)%nat ∧ invitations s !! autoId (env j) = Some d ∧ pending_for e d.
Proof.
  intros Hids. induction i as [|i IH]; intros Hi.
  - exists no_results, st. split; [done|]. split; [constructor|].
    intros e He. by apply elem_of_nil in He.
  - destruct IH as (r & s & Hbefore & Hnd & Hpending); [lia|].
    destruct (lookup_lt_is_Some_2 todo i) as [email Hemail]; [lia|].
    rewrite (loop_after_S _ _ _ _ _ _ Hemail), Hbefore.
    destruct (processEmail_step (env i) createdBy email r s) as (r' & s' & -> & Hstep).
    exists r', s'. split; [done|].
    assert (∀ e, e ∈ success r →
              ∃ j d, (j < S i)%nat ∧
                invitations (with_invitation (env i) createdBy email s)
                  !! autoId (env j) = Some d ∧ pending_for e d) as Hkept.
    { intros e He. destruct (Hpending e He) as (j & d & Hj & Hdoc & Hd).
      exists j, d. split; [lia|]. split; [|done]. simpl.
      rewrite lookup_insert_ne; [done|]. apply not_eq_sym, Hids. lia. }
    assert (∀ e, e ∈ success r →
              ∃ j d, (j < S i)%nat ∧ invitations s !! autoId (env j) = Some d ∧
                     pending_for e d) as Hsame.
    { intros e He. destruct (Hpending e He) as (j & d & Hj & Hdoc & Hd).
      exists j, d. split; [lia|done]. }
    destruct Hstep; simpl; try (split; [done|]; done).
    split.
    + apply NoDup_app. split; [done|]. split; [|apply NoDup_singleton].
      intros e He ->%list_elem_of_singleton.
      destruct (Hpending email He) as (j & d & _ & Hdoc & Hd).
      match goal with Hno : ¬ has_pending s email |- _ => apply Hno end.
      by exists (autoId (env j)), d.
    + intros e [He | ->%list_elem_of_singleton]%elem_of_app; [by apply Hkept|].
      exists i, (newInvitation (env i) createdBy email). split; [lia|].
      split; [apply lookup_insert_eq|by split].
Qed.

(** X18: when the document ids drawn in one call are all different, no
    address is listed in [success] twice, however often it occurs in the
    input, and each address in [success] has a pending invitation in the
    store the call leaves. *)
Theorem sendInvitations_success_once env (request : CallableRequest SendData) st results st' :
  sendInvitations env request st = (Ok results, st') →
  (∀ j1 j2, (j1 < j2 < length (emails (data request)))%nat →
            autoId (env j1) ≠ autoId (env j2)) →
  NoDup (success results) ∧ ∀ e, e ∈ success results → has_pending st' e.
Proof.
  intros Hrun Hids.
  destruct (auth request) as [a|] eqn:Hauth.
  - destruct (decide (is_admin a st)) as [Hadmin|Hno].
    + rewrite (sendInvitations_unfold _ _ a) in Hrun by done.
      destruct (empty_snapshot (emails (data request))); [discriminate|].
      destruct (loop_after_success_pending env (createdBy_of request a)
                  (emails (data request)) st (length (emails (data request))) Hids)
        as (r & s & Hloop & Hnd & Hpending); [lia|].
      unfold loop_after in Hloop. rewrite firstn_all, Hrun in Hloop.
      injection Hloop as <- <-. split; [done|].
      intros e He. destruct (Hpending e He) as (j & d & _ & Hdoc & Hd).
      by exists (autoId (env j)), d.
    + rewrite (sendInvitations_not_admin _ _ a) in Hrun by done. discriminate.
  - rewrite sendInvitations_unauthenticated in Hrun by done. discriminate.
Qed.

Lemma sendInvitations_success_once_witness :
  NoDup ["a@x.org"] ∧
  has_pending (sendInvitations sample_envs sample_batch empty_store).2 "a@x.org".
Proof.
  destruct (sendInvitations_success_once sample_envs sample_batch empty_store _ _ eq_refl)
    as [Hnd Hpending].
  - intros j1 j2 Hj. simpl in Hj.
    destruct j1 as [|[|j1]]; destruct j2 as [|[|[|j2]]]; try lia; discriminate.
  - split; [exact Hnd|]. apply Hpending. simpl. apply list_elem_of_here.
Defined.

(** ** Acceptance is final *)

(** X19: acceptance is final. After [acceptInvitation] has succeeded, and
    whatever calls of the six functions follow, the invitation is never
    pending again and no call of [acceptInvitation] on its id succeeds, as
    long as no later [sendInvitations] draws the same document id for a new
    record. *)
Theorem accepted_is_final env (request : CallableRequest AcceptData) st st' ok
    (calls : list Call) :
  acceptInvitation env request st = (Ok ok, st') →
  Forall (λ c, ¬ draws c (a_invitationId (data request))) calls →
  spent (a_invitationId (data request)) (run calls st') ∧
  ∀ env' userId a',
    ∃ e, acceptInvitation env'
           (mkRequest (mkAcceptData (a_invitationId (data request)) userId) a')
           (run calls st') = (Throw e, run calls st').
Proof.
  intros Hrun Hfresh.
  apply acceptInvitation_success in Hrun as (Hi & _ & inv & _ & _ & _ & ->).
  assert (spent (a_invitationId (data request))
            (run calls
               {| users := users st;
                  invitations := <[a_invitationId (data request) :=
                                     accepted_by env (a_userId (data request)) inv]>
                                   (invitations st) |})) as Hspent.
  { apply run_spent; [done|]. unfold spent. simpl. by rewrite lookup_insert_eq. }
  split; [done|]. intros env' userId a'.
  destruct (decide (userId = "")) as [Hu|Hu].
  { rewrite acceptInvitation_requires_inputs by auto. eauto. }
  rewrite acceptInvitation_unfold by done. simpl. unfold spent in Hspent.
  destruct (invitations _ !! a_invitationId (data request)) as [d|]; [|eauto].
  rewrite bool_decide_eq_false_2 by done. eauto.
Qed.

Lemma accepted_is_final_witness :
  let first := acceptInvitation half_second_late
                 (mkRequest (mkAcceptData "d0" "uid123") None) open_store in
  let later := [CallResend minute_later (mkRequest "d0" (Some coach));
                CallSend (λ i, sample_envs (S i))
                  (mkRequest (mkSendData ["new@swim.org"] None) (Some coach))] in
  first.1 = Ok success_true ∧
  ∃ e, acceptInvitation minute_later (mkRequest (mkAcceptData "d0" "uid456") None)
         (run later first.2) = (Throw e, run later first.2).
Proof.
  split; [reflexivity|].
  destruct (accepted_is_final half_second_late
              (mkRequest (mkAcceptData "d0" "uid123") None) open_store _ success_true
              [CallResend minute_later (mkRequest "d0" (Some coach));
               CallSend (λ i, sample_envs (S i))
                 (mkRequest (mkSendData ["new@swim.org"] None) (Some coach))]
              eq_refl) as [_ Hagain].
  - repeat constructor.
    + simpl. tauto.
    + simpl. intros (j & email & Hj & Hid).
      destruct j as [|j]; [discriminate|]. simpl in Hj. discriminate.
  - apply (Hagain minute_later "uid456" None).
Defined.

(** * The registration page *)

(** X20: for a link with a token and an address, [verifyToken] only reads
    the store and ends with [verifying] off. When the function answers
    [valid: true] the page holds the invitation, the address of the link in
    its address field and the returned role; otherwise invitation, address
    and role stay as they were and the error shown is one of the two
    messages of the function. The function does not throw for such a
    request, so the 'Failed to verify invitation' branch of the page is not
    reached through it. *)
Theorem verifyToken_sets_invitation_iff_valid
    sdk_message env caller (token email : string) pg st :
  token ≠ "" → email ≠ "" →
  let r := (verifyInvitation env (mkRequest (mkVerifyData token email) caller) st).1 in
  let pg' := (verifyToken sdk_message env caller (Some token) (Some email) pg st).1 in
  (verifyToken sdk_message env caller (Some token) (Some email) pg st).2 = st ∧
  pg_verifying pg' = false ∧
  (valid r →
     ∃ id role, r = Ok (Valid id email role) ∧
       pg_invitation pg' = Some (mkInfo id email role) ∧
       pg_email pg' = email ∧ pg_role pg' = role ∧ pg_error pg' = pg_error pg) ∧
  (¬ valid r →
     pg_invitation pg' = pg_invitation pg ∧ pg_email pg' = pg_email pg ∧
     pg_role pg' = pg_role pg ∧
     (pg_error pg' = "Invalid or expired invitation" ∨
      pg_error pg' = "Invitation has expired")).
Proof.
  intros Ht He r pg'. subst r pg'. unfold verifyToken. simpl.
  apply truthy_true in Ht as Ht', He as He'. rewrite Ht', He'. simpl.
  rewrite verifyInvitation_unfold by done. simpl.
  destruct (head _) as [inv|] eqn:Hhead; simpl.
  - apply where_head in Hhead as [(Hmail & _ & _) _].
    case_bool_decide; simpl.
    + repeat split; try done. by right.
    + split; [done|]. split; [done|]. split; [|done].
      intros _. exists (inv_id inv), (js_or (inv_role inv) "supporter").
      by rewrite Hmail.
  - repeat split; try done. by left.
Qed.

Lemma verifyToken_sets_invitation_iff_valid_witness :
  let pg' := (verifyToken plain_sdk half_second_late None (Some "c0ffee")
                (Some "new@swim.org") initial_page open_store).1 in
  pg_invitation pg' = Some (mkInfo "d0" "new@swim.org" "supporter") ∧
  pg_email pg' = "new@swim.org" ∧ pg_role pg' = "supporter".
Proof.
  destruct (verifyToken_sets_invitation_iff_valid plain_sdk half_second_late None
              "c0ffee" "new@swim.org" initial_page open_store)
    as (_ & _ & Hvalid & _); [discriminate|discriminate|].
  destruct Hvalid as (id & role & Hr & Hinv & Hmail & Hrole & _); [by vm_compute|].
  vm_compute in Hr. injection Hr as <- <-. by repeat split.
Defined.

(** X21: [handleSubmit] checks the form before it calls anything: with an
    empty field it shows 'Please fill in all fields'; with all four filled
    and two different passwords, 'Passwords do not match'; with equal
    passwords of a [length] below six (counted in UTF-16 code units, so that
    five letters of which one is accented are too few, although they take
    six bytes), 'Password must be at least 6 characters long'. In these cases
    [register] and [acceptInvitation] are not called and the store is as it
    was. *)
Theorem handleSubmit_checks_the_form (register : RegisterFn) env caller pg st :
  ¬ form_ok pg →
  ∃ why, handleSubmit register env caller pg st = (form_refused why pg, st) ∧
    why =
      (if decide (pg_email pg = "" ∨ pg_password pg = "" ∨
                  pg_confirmPassword pg = "" ∨ pg_displayName pg = "")
       then "Please fill in all fields"
       else if decide (pg_password pg ≠ pg_confirmPassword pg)
       then "Passwords do not match"
       else "Password must be at least 6 characters long").
Proof.
  intros Hbad. unfold handleSubmit, form_refused.
  destruct (decide (pg_email pg = "" ∨ pg_password pg = "" ∨
                    pg_confirmPassword pg = "" ∨ pg_displayName pg = ""))
    as [Hempty|Hfilled].
  - assert (negb (truthy (pg_email pg)) || negb (truthy (pg_password pg))
            || negb (truthy (pg_confirmPassword pg))
            || negb (truthy (pg_displayName pg)) = true) as ->.
    { destruct Hempty as [H|[H|[H|H]]]; apply truthy_false in H; rewrite H; simpl;
        rewrite ?orb_true_r; done. }
    eauto.
  - assert (pg_email pg ≠ "" ∧ pg_password pg ≠ "" ∧ pg_confirmPassword pg ≠ "" ∧
            pg_displayName pg ≠ "") as (H1 & H2 & H3 & H4).
    { repeat split; intros H; apply Hfilled; auto. }
    apply truthy_true in H1 as ->, H2 as ->, H3 as ->, H4 as ->. simpl.
    destruct (decide (pg_password pg ≠ pg_confirmPassword pg)) as [Hdiff|Hsame].
    + rewrite bool_decide_eq_false_2 by done. simpl. eauto.
    + apply dec_stable in Hsame. rewrite bool_decide_eq_true_2 by done. simpl.
      destruct (js_length (pg_password pg) <? 6)%nat eqn:Hlen; [eauto|].
      apply Nat.ltb_ge in Hlen. destruct Hbad. unfold form_ok.
      repeat split; try done; intros H; apply Hfilled; auto.
Qed.

Lemma handleSubmit_checks_the_form_witness :
  handleSubmit sample_register half_second_late None
    (setConfirmPassword "dolphin2" filled_page) open_store =
  (form_refused "Passwords do not match" (setConfirmPassword "dolphin2" filled_page),
   open_store) ∧
  handleSubmit sample_register half_second_late None accented_page open_store =
  (form_refused "Password must be at least 6 characters long" accented_page,
   open_store).
Proof.
  split.
  - destruct (handleSubmit_checks_the_form sample_register half_second_late None
                (setConfirmPassword "dolphin2" filled_page) open_store)
      as (why & Hrun & Hwhy).
    + apply (bool_decide_unpack _). by vm_compute.
    + rewrite Hrun, Hwhy. reflexivity.
  - destruct (handleSubmit_checks_the_form sample_register half_second_late None
                accented_page open_store)
      as (why & Hrun & Hwhy).
    + apply (bool_decide_unpack _). by vm_compute.
    + rewrite Hrun, Hwhy. reflexivity.
Defined.

Lemma handleSubmit_unfold (register : RegisterFn) env caller pg st :
  form_ok pg →
  handleSubmit register env caller pg st =
    match register (pg_email pg) (pg_password pg) (pg_displayName pg) (pg_role pg) st with
    | (Registered, st1) =>
        (setLoading false
           (router_push "/login"
              (setSuccess "Registration successful! You can now log in."
                 (setLoading true (setSuccess "" (setError "" pg))))),
         match pg_invitation pg with
         | Some invitation =>
             (acceptInvitation env
                (mkRequest (mkAcceptData (info_id invitation) (pg_email pg)) caller)
                st1).2
         | None => st1
         end)
    | (Rejected code, st1) =>
        (setLoading false
           (setError (getAuthErrorMessage code)
              (setLoading true (setSuccess "" (setError "" pg)))),
         st1)
    end.
Proof.
  intros (H1 & H2 & H3 & H4 & Hsame & Hlen). unfold handleSubmit.
  apply truthy_true in H1 as ->, H2 as ->, H3 as ->, H4 as ->. simpl.
  rewrite bool_decide_eq_true_2 by done. simpl.
  apply Nat.ltb_ge in Hlen as ->.
  destruct (register _ _ _ _ st) as [[|code] st1]; [done|].
  assert (truthy (getAuthErrorMessage code) = true) as ->; [|done].
  unfold getAuthErrorMessage. by repeat case_bool_decide.
Qed.

(** X22: when the form passes its checks and [register] succeeds, the page
    reports 'Registration successful! You can now log in.', shows no error
    and sends the visitor to /login, whatever becomes of the invitation.
    [acceptInvitation] is called with the id of the verified invitation and
    the address of the form as user id: a pending record that has not passed
    its expiry second becomes accepted with [acceptedBy] = that address; for
    a record past it the store stays as [register] left it, the record still
    pending, and the page reports success all the same. *)
Theorem handleSubmit_registers_then_accepts
    (register : RegisterFn) env caller pg st st1 invitation :
  form_ok pg →
  register (pg_email pg) (pg_password pg) (pg_displayName pg) (pg_role pg) st
    = (Registered, st1) →
  pg_invitation pg = Some invitation → info_id invitation ≠ "" →
  let pg' := (handleSubmit register env caller pg st).1 in
  let st2 := (handleSubmit register env caller pg st).2 in
  pg_success pg' = "Registration successful! You can now log in." ∧
  pg_error pg' = "" ∧ pg_loading pg' = false ∧ pg_pushed pg' = Some "/login" ∧
  (∀ inv, invitations st1 !! info_id invitation = Some inv →
     inv_status inv = "pending" →
     (live_at (Timestamp_now env) inv →
      invitations st2 !! info_id invitation = Some (accepted_by env (pg_email pg) inv) ∧
      inv_acceptedBy (accepted_by env (pg_email pg) inv) = Some (pg_email pg)) ∧
     (¬ live_at (Timestamp_now env) inv → st2 = st1)).
Proof.
  intros Hok Hreg Hinv Hid pg' st2. subst pg' st2.
  rewrite handleSubmit_unfold, Hreg, Hinv by done. simpl.
  do 4 (split; [done|]). intros inv Hdoc Hpending.
  rewrite acceptInvitation_unfold by (simpl; try done; apply Hok). simpl.
  rewrite Hdoc, bool_decide_eq_true_2 by done. split.
  - intros Hlive.
    rewrite bool_decide_eq_false_2
      by (unfold live_at, Timestamp_now in *; simpl in *; lia).
    simpl. split; [apply lookup_insert_eq|done].
  - intros Hlate.
    by rewrite bool_decide_eq_true_2
      by (unfold live_at, Timestamp_now in *; simpl in *; lia).
Qed.

Lemma handleSubmit_registers_then_accepts_witness :
  let st2 := (handleSubmit sample_register (long_after 0%nat) None
                (setEmail "a@x.org"
                   (setInvitation (Some (mkInfo "d0" "a@x.org" "supporter")) filled_page))
                lapsed_store).2 in
  has_account st2 "a@x.org" ∧ invitations st2 !! "d0" = Some lapsed_invitation.
Proof.
  destruct (handleSubmit_registers_then_accepts sample_register (long_after 0%nat) None
              (setEmail "a@x.org"
                 (setInvitation (Some (mkInfo "d0" "a@x.org" "supporter")) filled_page))
              lapsed_store _ (mkInfo "d0" "a@x.org" "supporter")
              ltac:(apply (bool_decide_unpack _); by vm_compute) eq_refl eq_refl
              ltac:(discriminate))
    as (_ & _ & _ & _ & Haccept).
  destruct (Haccept lapsed_invitation eq_refl eq_refl) as [_ Hlate].
  rewrite Hlate.
  - split; [apply (bool_decide_unpack _); by vm_compute|reflexivity].
  - unfold live_at. vm_compute. intros H. by apply H.
Defined.

(** X23: when the form passes its checks and [register] fails, the page
    shows one of five messages chosen by the code of the error, never the
    text 'Failed to register' that the handler holds in reserve; it reports
    no success, sends the visitor nowhere, and does not call
    [acceptInvitation]: the store is as [register] left it. *)
Theorem handleSubmit_register_rejected
    (register : RegisterFn) env caller pg st st1 code :
  form_ok pg →
  register (pg_email pg) (pg_password pg) (pg_displayName pg) (pg_role pg) st
    = (Rejected code, st1) →
  let pg' := (handleSubmit register env caller pg st).1 in
  (handleSubmit register env caller pg st).2 = st1 ∧
  pg_success pg' = "" ∧ pg_loading pg' = false ∧ pg_pushed pg' = pg_pushed pg ∧
  pg_error pg' = getAuthErrorMessage code ∧
  pg_error pg' ∈ [ "This email is already registered";
                   "Invalid email address format";
                   "Password is too weak. Use at least 6 characters";
                   "Registration is currently disabled";
                   "An error occurred during registration" ].
Proof.
  intros Hok Hreg pg'. subst pg'.
  rewrite handleSubmit_unfold, Hreg by done. simpl.
  do 5 (split; [done|]).
  unfold getAuthErrorMessage. repeat case_bool_decide; set_solver.
Qed.

Lemma handleSubmit_register_rejected_witness :
  pg_error (handleSubmit taken_register half_second_late None filled_page open_store).1
    = "This email is already registered" ∧
  (handleSubmit taken_register half_second_late None filled_page open_store).2 = open_store.
Proof.
  destruct (handleSubmit_register_rejected taken_register half_second_late None
              filled_page open_store open_store (Some "auth/email-already-in-use")
              ltac:(apply (bool_decide_unpack _); by vm_compute) eq_refl)
    as (Hstore & _ & _ & _ & Herror & _).
  split; [by rewrite Herror|exact Hstore].
Defined.

Lemma verifyToken_valid sdk_message env caller (token email : string) pg st :
  token ≠ "" → email ≠ "" →
  valid (verifyInvitation env (mkRequest (mkVerifyData token email) caller) st).1 →
  ∃ k inv, invitations st !! k = Some inv ∧ matches email token inv ∧
    live_at (Timestamp_now env) inv ∧
    verifyToken sdk_message env caller (Some token) (Some email) pg st =
      (setVerifying false
         (setRole (js_or (inv_role inv) "supporter")
            (setEmail email
               (setInvitation
                  (Some (mkInfo (inv_id inv) email (js_or (inv_role inv) "supporter")))
                  (setVerifying true pg)))),
       st).
Proof.
  intros Ht He Hvalid. unfold verifyToken. simpl.
  apply truthy_true in Ht as Ht', He as He'. rewrite Ht', He'. simpl.
  rewrite verifyInvitation_unfold in Hvalid |- * by done. simpl in *.
  destruct (head _) as [inv|] eqn:Hhead; [|done].
  apply where_head in Hhead as [Hm [k Hk]].
  case_bool_decide; [done|]. exists k, inv.
  split; [done|]. split; [done|].
  split; [unfold live_at, Timestamp_now in *; simpl in *; lia|].
  by destruct Hm as (-> & _ & _).
Qed.

(** X24: a visitor opens a link that verifies, types a name and a password
    of [length] six or more twice, and submits while the invitation has
    not passed its expiry second; [register] succeeds and leaves the
    invitations alone. Then [register] was called with the address of the
    link and the role that verification returned, the page reports success,
    and the invitation is accepted with [acceptedBy] = the address of the
    link. The store is one whose documents sit under their own ids. *)
Theorem invited_visitor_ends_accepted
    sdk_message (register : RegisterFn) env1 env2 caller
    (token email password displayName : string) st st1 :
  keyed_by_id st → token ≠ "" → email ≠ "" →
  valid (verifyInvitation env1 (mkRequest (mkVerifyData token email) caller) st).1 →
  displayName ≠ "" → (6 ≤ js_length password)%nat →
  let pg :=
    setConfirmPassword password
      (setPassword password
         (setDisplayName displayName
            (verifyToken sdk_message env1 caller (Some token) (Some email)
               initial_page st).1)) in
  register email password displayName (pg_role pg) st = (Registered, st1) →
  invitations st1 = invitations st →
  ∃ k inv, invitations st !! k = Some inv ∧ matches email token inv ∧
    pg_role pg = js_or (inv_role inv) "supporter" ∧
    (k ≠ "" → live_at (Timestamp_now env2) inv →
     pg_success (handleSubmit register env2 caller pg st).1 =
       "Registration successful! You can now log in." ∧
     invitations (handleSubmit register env2 caller pg st).2 !! k =
       Some (accepted_by env2 email inv)).
Proof.
  intros Hkeyed Ht He Hvalid Hname Hlen pg.
  destruct (verifyToken_valid sdk_message env1 caller token email initial_page st
              Ht He Hvalid) as (k & inv & Hk & Hm & _ & Hpage).
  subst pg. rewrite Hpage. simpl. intros Hreg Hinvs.
  exists k, inv. split; [done|]. split; [done|]. split; [done|].
  intros Hid Hlive.
  rewrite handleSubmit_unfold; simpl.
  - rewrite Hreg. simpl. split; [done|].
    rewrite (Hkeyed k inv Hk).
    rewrite acceptInvitation_unfold by done. simpl.
    rewrite Hinvs, Hk. destruct Hm as (_ & _ & Hpending).
    rewrite bool_decide_eq_true_2 by done.
    rewrite bool_decide_eq_false_2
      by (unfold live_at, Timestamp_now in *; simpl in *; lia).
    simpl. apply lookup_insert_eq.
  - repeat split; simpl; try done.
    all: intros ->; simpl in Hlen; lia.
Qed.

Lemma invited_visitor_ends_accepted_witness :
  ∃ d, invitations (handleSubmit sample_register minute_later None filled_page
                      open_store).2 !! "d0" = Some d ∧
       inv_status d = "accepted" ∧ inv_acceptedBy d = Some "new@swim.org".
Proof.
  destruct (invited_visitor_ends_accepted plain_sdk sample_register half_second_late
              minute_later None "c0ffee" "new@swim.org" "dolphin1" "New Swimmer"
              open_store
              (sample_register "new@swim.org" "dolphin1" "New Swimmer" "supporter"
                 open_store).2)
    as (k & inv & Hk & _ & _ & Hsubmit).
  - intros j d Hj. simpl in Hj. by apply lookup_singleton_Some in Hj as [<- <-].
  - discriminate.
  - discriminate.
  - by vm_compute.
  - discriminate.
  - simpl. lia.
  - reflexivity.
  - reflexivity.
  - simpl in Hk. apply lookup_singleton_Some in Hk as [<- <-].
    destruct Hsubmit as [_ Hdoc]; [discriminate|unfold live_at; by vm_compute|].
    eexists. split; [exact Hdoc|]. by split.
Defined.
